(** * Playback scheduler and stream-resolution cascade of the music bot

    A shallow embedding of [src/music_bot.py]: the stream resolver
    ([YTDLSource.from_url] and the two proxy look-ups), the download-cache
    retention policy ([cleanup_old_downloads]), the playlist expansion
    functions and the per-guild [MusicPlayer] with the commands that mutate
    it.  Every external collaborator (the yt-dlp subprocess, the HTTP
    endpoints, the metadata extractor, the voice transport, the file system)
    is an explicit oracle or an explicit piece of state, so each function of
    the source is an executable Rocq function of its inputs. *)

From stdpp Require Import gmap strings list fin_maps pretty.
From Stdlib Require Import ZArith Ascii Permutation Sorted.

Local Open Scope string_scope.
Local Open Scope list_scope.
Local Open Scope Z_scope.

(** ** Stream resolution *)

Module Resolver.

(** *** The download directory *)

(** A directory entry: full path and modification time ([os.path.getmtime];
    a float in the source, an integer number of time units here).  The
    directory is the list of its entries in listing order, the order in
    which [glob.glob] reports them. *)
Record File := { path : string; mtime : Z }.

#[global] Instance File_eq_dec : EqDecision File.
Proof. solve_decision. Defined.

Abbreviation FS := (list File).

Fixpoint has_char (c : ascii) (s : string) : bool :=
  match s with
  | EmptyString => false
  | String d s' => if Ascii.eqb c d then true else has_char c s'
  end.

Fixpoint strip_prefix (p s : string) : option string :=
  match p with
  | EmptyString => Some s
  | String c p' =>
      match s with
      | EmptyString => None
      | String d s' => if Ascii.eqb c d then strip_prefix p' s' else None
      end
  end.

(** [fnmatch] of a path against ["/tmp/ytdl_*.*"]: the stars do not cross
    a directory separator. *)
Definition matches_any (p : string) : bool :=
  match strip_prefix "/tmp/ytdl_" p with
  | Some rest => has_char "." rest && negb (has_char "/" rest)
  | None => false
  end.

(** [fnmatch] of a path against [f"/tmp/ytdl_{video_id}.*"]; an
    identifier has no wildcard character. *)
Definition matches_video (video_id p : string) : bool :=
  match strip_prefix ("/tmp/ytdl_" +:+ video_id +:+ ".") p with
  | Some rest => negb (has_char "/" rest)
  | None => false
  end.

(** [glob.glob("/tmp/ytdl_*.*")] *)
Definition glob_all (fs : FS) : list File :=
  filter (fun f => matches_any (path f) = true) fs.

(** [glob.glob(f"/tmp/ytdl_{video_id}.*")] *)
Definition glob_video (video_id : string) (fs : FS) : list File :=
  filter (fun f => matches_video video_id (path f) = true) fs.

Definition MAX_CACHED_SONGS : nat := 3.

(** [files.sort(key=os.path.getmtime)]: Python's sort is stable; an entry
    is inserted in front of the entries after it in the listing that are
    not older, so equal keys stay in listing order. *)
Fixpoint insert_by_mtime (f : File) (l : list File) : list File :=
  match l with
  | [] => [f]
  | g :: l' => if mtime f <=? mtime g then f :: g :: l'
               else g :: insert_by_mtime f l'
  end.

Fixpoint sort_by_mtime (l : list File) : list File :=
  match l with
  | [] => []
  | f :: l' => insert_by_mtime f (sort_by_mtime l')
  end.

(** [files[:len(files) - MAX_CACHED_SONGS]] of the sorted list; the empty
    list unless [len(files) > MAX_CACHED_SONGS]. *)
Definition files_to_delete (fs : FS) : list File :=
  let files := glob_all fs in
  if bool_decide (MAX_CACHED_SONGS < length files)%nat
  then take (length files - MAX_CACHED_SONGS) (sort_by_mtime files)
  else [].

(** What the retention policy keeps: the tail of the sorted list. *)
Definition files_to_keep (fs : FS) : list File :=
  let files := glob_all fs in
  if bool_decide (MAX_CACHED_SONGS < length files)%nat
  then drop (length files - MAX_CACHED_SONGS) (sort_by_mtime files)
  else files.

(** [os.remove(file)] inside [try]/[except]: [removable p = false] is an
    [os.remove] that raises; the exception is printed and the loop goes
    on. *)
Definition os_remove (removable : string -> bool) (p : string) (fs : FS) : FS :=
  if removable p then filter (fun f => path f <> p) fs else fs.

(** [cleanup_old_downloads].  Nobody else changes the directory during
    the call, so [glob] and [getmtime] do not raise. *)
Definition cleanup_old_downloads (removable : string -> bool) (fs : FS) : FS :=
  foldl (fun acc f => os_remove removable (path f) acc) fs (files_to_delete fs).

(** The candidates whose [os.remove] raised. *)
Definition failed_deletions (removable : string -> bool) (fs : FS) : list File :=
  filter (fun f => removable (path f) = false) (files_to_delete fs).

(** *** Identifier extraction *)

(** The character class [[0-9A-Za-z_-]]. *)
Definition is_id_char (c : ascii) : bool :=
  let n := nat_of_ascii c in
  ((48 <=? n) && (n <=? 57))%nat || ((65 <=? n) && (n <=? 90))%nat
  || ((97 <=? n) && (n <=? 122))%nat || (n =? 95)%nat || (n =? 45)%nat.

(** [n] characters of the class at the start of [s]. *)
Fixpoint take_id (n : nat) (s : string) : option string :=
  match n with
  | O => Some EmptyString
  | S n' =>
      match s with
      | EmptyString => None
      | String c s' =>
          if is_id_char c then String c <$> take_id n' s' else None
      end
  end.

(** [re.search(r'(?:v=|\/)([0-9A-Za-z_-]{11}).*', url)], group 1: the
    left-most position at which ["v="] or ["/"] is followed by eleven
    characters of the class.  The trailing [.*] always matches. *)
Fixpoint re_search_video_id (url : string) : option string :=
  match url with
  | EmptyString => None
  | String c rest =>
      let here :=
        if Ascii.eqb c "/" then take_id 11 rest
        else if Ascii.eqb c "v" then
          match rest with
          | String d rest' => if Ascii.eqb d "=" then take_id 11 rest' else None
          | EmptyString => None
          end
        else None in
      match here with
      | Some v => Some v
      | None => re_search_video_id rest
      end
  end.

(** *** The HTTP providers *)

Definition PIPED_INSTANCES : list string :=
  [ "https://pipedapi.kavin.rocks";
    "https://pipedapi.tokhmi.xyz";
    "https://api-piped.mha.fi" ].

Definition INVIDIOUS_INSTANCES : list string :=
  [ "https://iv.ggtyler.dev";
    "https://invidious.fdn.fr";
    "https://inv.nadeko.net";
    "https://invidious.private.coffee";
    "https://yt.artemislena.eu";
    "https://invidious.flokinet.to" ].

(** One candidate of the JSON payload: [x.get('type', '')],
    [x.get('bitrate', 0)] ([None]: key absent), [x.get('url')]. *)
Record StreamEntry := {
  e_type : string;
  e_bitrate : option Z;
  e_url : option string
}.

(** The decoded body: [BodyMalformed] is every body on which [resp.json()]
    or one of the dictionary accesses raises; [BodyObject] carries the list
    under ['audioStreams'] (Piped) or ['adaptiveFormats'] (Invidious),
    empty when the key is absent. *)
Inductive Body :=
  | BodyMalformed
  | BodyObject (entries : list StreamEntry).

(** What [session.get(url, timeout=...)] does. *)
Inductive HttpOutcome :=
  | HttpTimeout
  | HttpError
  | HttpResponse (status : Z) (body : Body).

Definition bitrate_key (x : StreamEntry) : Z := default 0 (e_bitrate x).

(** [max(l, key=...)] on a non-empty list: the first maximal element. *)
Fixpoint py_max (best : StreamEntry) (l : list StreamEntry) : StreamEntry :=
  match l with
  | [] => best
  | x :: l' => py_max (if bitrate_key best <? bitrate_key x then x else best) l'
  end.

(** [if stream_url:] *)
Definition truthy (o : option string) : option string :=
  match o with
  | Some EmptyString => None
  | Some s => Some s
  | None => None
  end.

Definition best_url (l : list StreamEntry) : option string :=
  match l with
  | [] => None
  | x :: l' => truthy (e_url (py_max x l'))
  end.

(** The body of the [try] for one Piped instance: [Some] is the [return]. *)
Definition piped_response (o : HttpOutcome) : option string :=
  match o with
  | HttpResponse status body =>
      if status =? 200 then
        match body with
        | BodyObject audio_streams => best_url audio_streams
        | BodyMalformed => None
        end
      else None
  | HttpTimeout | HttpError => None
  end.

Definition is_audio (f : StreamEntry) : bool :=
  match strip_prefix "audio" (e_type f) with Some _ => true | None => false end.

(** The body of the [try] for one Invidious instance. *)
Definition invidious_response (o : HttpOutcome) : option string :=
  match o with
  | HttpResponse status body =>
      if status =? 200 then
        match body with
        | BodyObject adaptive_formats =>
            best_url (List.filter is_audio adaptive_formats)
        | BodyMalformed => None
        end
      else None
  | HttpTimeout | HttpError => None
  end.

(** *** The primary downloader and the metadata extractor *)

Inductive RunOutcome :=
  | RunRaised                  (* TimeoutExpired, FileNotFoundError, ... *)
  | RunExit (returncode : Z).

(** The info dictionary, with string values. *)
Abbreviation Data := (gmap string string).

(** [ytdl_search.extract_info(url, download=False)] *)
Inductive InfoOutcome :=
  | InfoRaised
  | InfoNone
  | InfoDict (d : Data)                       (* no ['entries'] key *)
  | InfoEntries (entries : list (option Data)).

(** The external world, as seen by one call of [from_url]. *)
Record World := {
  subprocess_run : list string -> Z -> FS -> RunOutcome * FS;
  removable : string -> bool;
  extract_info_cli : string -> InfoOutcome;      (* the call after a download *)
  extract_info_proxy : string -> InfoOutcome;    (* the call after a proxy hit *)
  http_get : string -> Z -> HttpOutcome
}.

(** What was attempted, in order. *)
Inductive Attempt :=
  | RunYtdlp (cmd : list string) (timeout : Z)
  | HttpGet (url : string) (timeout : Z).

Definition CLI_TIMEOUT : Z := 60.
Definition HTTP_TIMEOUT : Z := 15.

Definition piped_url (video_id instance : string) : string :=
  instance +:+ "/streams/" +:+ video_id.

Definition invidious_url (video_id instance : string) : string :=
  instance +:+ "/api/v1/videos/" +:+ video_id.

(** The loop over the instances: stop at the first usable answer. *)
Fixpoint try_instances (w : World) (mk : string -> string)
    (answer : HttpOutcome -> option string) (instances : list string)
    : option string * list Attempt :=
  match instances with
  | [] => (None, [])
  | instance :: rest =>
      let url := mk instance in
      match answer (http_get w url HTTP_TIMEOUT) with
      | Some stream_url => (Some stream_url, [HttpGet url HTTP_TIMEOUT])
      | None =>
          let '(r, tr) := try_instances w mk answer rest in
          (r, HttpGet url HTTP_TIMEOUT :: tr)
      end
  end.

Definition get_youtube_stream_piped (w : World) (video_id : string)
    : option string * list Attempt :=
  try_instances w (piped_url video_id) piped_response PIPED_INSTANCES.

Definition get_youtube_stream_invidious (w : World) (video_id : string)
    : option string * list Attempt :=
  try_instances w (invidious_url video_id) invidious_response INVIDIOUS_INSTANCES.

(** [discord.FFmpegPCMAudio(input, before_options=..., options=...)] *)
Record FFmpegPCMAudio := {
  ff_input : string;
  ff_before_options : option string;
  ff_options : string
}.

(** [YTDLSource(source, data=data)]; the volume is left out. *)
Record YTDLSource := {
  source : FFmpegPCMAudio;
  data : Data;
  title : option string;
  webpage_url : option string
}.

Definition mk_source (src : FFmpegPCMAudio) (d : Data) : YTDLSource :=
  {| source := src; data := d; title := d !! "title";
     webpage_url := d !! "webpage_url" |}.

(** The metadata step shared by both paths:
    [if 'entries' in data: data = data['entries'][0] if data['entries'] else None]
    followed by [if data:].  [None] covers the raise (also the [TypeError]
    of ['entries' in None]) and the falsy record. *)
Definition usable_info (o : InfoOutcome) : option Data :=
  let picked :=
    match o with
    | InfoRaised | InfoNone => None
    | InfoDict d => Some d
    | InfoEntries [] => None
    | InfoEntries (e :: _) => e
    end in
  match picked with
  | Some d => if bool_decide (d = ∅) then None else Some d
  | None => None
  end.

Definition RECONNECT : string :=
  "-reconnect 1 -reconnect_streamed 1 -reconnect_delay_max 5".

Definition ytdlp_cmd (video_id url : string) : list string :=
  [ "yt-dlp"; "-f"; "bestaudio/best"; "-x"; "--audio-format"; "mp3";
    "-o"; "/tmp/ytdl_" +:+ video_id +:+ ".%(ext)s"; url ].

(** The first [try] block of [from_url]: [Some] is its [return], [None]
    every way of leaving the block without returning (non-zero exit, no
    matching file, falsy metadata, any exception). *)
Definition cli_download (w : World) (fs : FS) (url video_id : string)
    : option YTDLSource * FS :=
  match subprocess_run w (ytdlp_cmd video_id url) CLI_TIMEOUT fs with
  | (RunRaised, fs1) => (None, fs1)
  | (RunExit returncode, fs1) =>
      if returncode =? 0 then
        match glob_video video_id fs1 with
        | [] => (None, fs1)
        | filename :: _ =>
            let fs2 := cleanup_old_downloads (removable w) fs1 in
            match usable_info (extract_info_cli w url) with
            | Some d =>
                (Some (mk_source {| ff_input := path filename;
                                    ff_before_options := None;
                                    ff_options := "-vn" |} d), fs2)
            | None => (None, fs2)
            end
        end
      else (None, fs1)
  end.

(** The proxy fallback, entered only with a matched identifier. *)
Definition proxy_fallback (w : World) (url video_id : string)
    : option YTDLSource * list Attempt :=
  let '(piped, tr1) := get_youtube_stream_piped w video_id in
  let '(stream_url, tr2) :=
    match piped with
    | Some u => (Some u, [])
    | None => get_youtube_stream_invidious w video_id
    end in
  match stream_url with
  | Some u =>
      match usable_info (extract_info_proxy w url) with
      | Some d =>
          (Some (mk_source {| ff_input := u;
                              ff_before_options := Some RECONNECT;
                              ff_options := "-vn" |} d), tr1 ++ tr2)
      | None => (None, tr1 ++ tr2)
      end
  | None => (None, tr1 ++ tr2)
  end.

(** The result of [from_url]: [None] is
    [raise Exception("All YouTube download methods failed")]. *)
Record Resolution := {
  handle : option YTDLSource;
  fs_after : FS;
  attempts : list Attempt
}.

Definition from_url (w : World) (fs : FS) (url : string) : Resolution :=
  let video_id_match := re_search_video_id url in
  let video_id := default "unknown" video_id_match in
  let cli := RunYtdlp (ytdlp_cmd video_id url) CLI_TIMEOUT in
  match cli_download w fs url video_id with
  | (Some src, fs') =>
      {| handle := Some src; fs_after := fs'; attempts := [cli] |}
  | (None, fs') =>
      match video_id_match with
      | Some vid =>
          let '(r, tr) := proxy_fallback w url vid in
          {| handle := r; fs_after := fs'; attempts := cli :: tr |}
      | None =>
          {| handle := None; fs_after := fs'; attempts := [cli] |}
      end
  end.

End Resolver.

(** ** The player *)

Module Player.

Import Resolver.

(** *** Songs *)

(** The [Song] dataclass.  [oid] is the identity of the object ([id(song)]
    in the source): two references are the same object exactly when their
    [oid]s agree; objects are never copied, so a player holds each [oid] at
    most once.  [requester] is an opaque member identifier. *)
Record Song := {
  title : string;
  url : string;
  duration : string;
  requester : nat;
  source_type : string;
  thumbnail : option string;
  oid : nat
}.

(** [f"{song.url}_{id(song)}"]: the identity is a run of digits after the
    last underscore, so the text determines the pair and the pair is used
    as the key. *)
Definition song_key (s : Song) : string * nat := (url s, oid s).

(** The type of [preloaded_sources]. *)
Abbreviation Cache := (gmap (string * nat) YTDLSource).

(** What [cog.process_youtube] found; the caller copies these four fields. *)
Record Found := {
  f_title : string;
  f_url : string;
  f_duration : string;
  f_thumbnail : option string
}.

(** The in-place update
    [song.url = yt_song.url; song.title = ...; song.duration = ...;
     song.thumbnail = ...]. *)
Definition assign_found (yt_song : Found) (s : Song) : Song :=
  {| title := f_title yt_song; url := f_url yt_song;
     duration := f_duration yt_song; requester := requester s;
     source_type := source_type s; thumbnail := f_thumbnail yt_song;
     oid := oid s |}.

Definition set_source_type (t : string) (s : Song) : Song :=
  {| title := title s; url := url s; duration := duration s;
     requester := requester s; source_type := t; thumbnail := thumbnail s;
     oid := oid s |}.

(** [str.startswith] and [str.replace(pat, '')] (every non-overlapping
    occurrence, left to right). *)
Definition startswith (pat s : string) : bool :=
  match strip_prefix pat s with Some _ => true | None => false end.

Fixpoint remove_all (pat : string) (skip : nat) (s : string) : string :=
  match s with
  | EmptyString => EmptyString
  | String c s' =>
      match skip with
      | S k => remove_all pat k s'
      | O => if startswith pat s
             then remove_all pat (String.length pat - 1) s'
             else String c (remove_all pat 0 s')
      end
  end.

Definition SPOTIFY_MARK : string := "spotify:search:".

Definition search_query_of (u : string) : string := remove_all SPOTIFY_MARK 0 u.

Definition is_pending_search (s : Song) : bool :=
  String.eqb (source_type s) "spotify" && startswith SPOTIFY_MARK (url s).

(** [MusicCog.format_duration] *)
Definition pad2 (n : Z) : string :=
  if (0 <=? n) && (n <? 10) then "0" +:+ pretty n else pretty n.

Definition format_duration (seconds : option Z) : string :=
  match seconds with
  | None | Some 0 => "Unknown"
  | Some s =>
      let hours := s / 3600 in
      let remainder := s mod 3600 in
      let minutes := remainder / 60 in
      let secs := remainder mod 60 in
      if hours =? 0 then pretty minutes +:+ ":" +:+ pad2 secs
      else pretty hours +:+ ":" +:+ pad2 minutes +:+ ":" +:+ pad2 secs
  end.

(** *** Playlist data *)

(** One entry of a flat playlist extraction; [None] fields are absent
    keys. *)
Record Entry := {
  en_id : option string;
  en_title : option string;
  en_duration : option Z;
  en_webpage_url : option string;
  en_url : option string;
  en_thumbnail : option string
}.

(** [entry.get('webpage_url') or entry.get('url') or f"https://www.youtube.com/watch?v={video_id}"] *)
Definition entry_url (e : Entry) : string :=
  match truthy (en_webpage_url e) with
  | Some u => u
  | None =>
      match truthy (en_url e) with
      | Some u => u
      | None => "https://www.youtube.com/watch?v=" +:+ default "None" (en_id e)
      end
  end.

(** The [Song(...)] built from a playlist entry, awaiting its identity. *)
Definition song_of_entry (e : Entry) (req : nat) (o : nat) : Song :=
  {| title := default "Unknown" (en_title e); url := entry_url e;
     duration := format_duration (en_duration e); requester := req;
     source_type := "youtube"; thumbnail := en_thumbnail e; oid := o |}.

(** A Spotify track: [track.get('name')], the names under
    [track['artists']] and the URL of the first album image.  A track
    without artists stands for every track on which building the song
    raises. *)
Record Track := {
  tr_name : option string;
  tr_artists : list string;
  tr_image : option string
}.

(** The song queued for a track that is searched later. *)
Definition song_of_query (search_query : string) (image : option string)
    (req : nat) (o : nat) : Song :=
  {| title := search_query; url := SPOTIFY_MARK +:+ search_query;
     duration := "Unknown"; requester := req; source_type := "spotify";
     thumbnail := image; oid := o |}.

(** The cursor of the just-in-time loader ([pending_playlist]). *)
Record Playlist := {
  is_spotify : bool;
  is_album : bool;
  tracks : list (option Track * string);   (* item['track'] / (track, artist) *)
  entries : list (option Entry);
  current_index : nat;
  pl_requester : nat
}.

Definition bump (pl : Playlist) : Playlist :=
  {| is_spotify := is_spotify pl; is_album := is_album pl;
     tracks := tracks pl; entries := entries pl;
     current_index := S (current_index pl); pl_requester := pl_requester pl |}.

(** *** Player state *)

Record MusicPlayer := {
  queue : list Song;
  current : option Song;
  loop : bool;
  loop_queue : bool;
  pending_playlist : option Playlist;
  preloaded_sources : gmap (string * nat) YTDLSource;
  next_oid : nat                      (* identity of the next [Song(...)] *)
}.

Definition new_player : MusicPlayer :=
  {| queue := []; current := None; loop := false; loop_queue := false;
     pending_playlist := None; preloaded_sources := ∅; next_oid := 0 |}.

Definition with_queue (q : list Song) (p : MusicPlayer) : MusicPlayer :=
  {| queue := q; current := current p; loop := loop p;
     loop_queue := loop_queue p; pending_playlist := pending_playlist p;
     preloaded_sources := preloaded_sources p; next_oid := next_oid p |}.

Definition with_current (c : option Song) (p : MusicPlayer) : MusicPlayer :=
  {| queue := queue p; current := c; loop := loop p;
     loop_queue := loop_queue p; pending_playlist := pending_playlist p;
     preloaded_sources := preloaded_sources p; next_oid := next_oid p |}.

Definition with_loops (l lq : bool) (p : MusicPlayer) : MusicPlayer :=
  {| queue := queue p; current := current p; loop := l;
     loop_queue := lq; pending_playlist := pending_playlist p;
     preloaded_sources := preloaded_sources p; next_oid := next_oid p |}.

Definition with_pending (pl : option Playlist) (p : MusicPlayer) : MusicPlayer :=
  {| queue := queue p; current := current p; loop := loop p;
     loop_queue := loop_queue p; pending_playlist := pl;
     preloaded_sources := preloaded_sources p; next_oid := next_oid p |}.

Definition with_cache (m : gmap (string * nat) YTDLSource) (p : MusicPlayer)
    : MusicPlayer :=
  {| queue := queue p; current := current p; loop := loop p;
     loop_queue := loop_queue p; pending_playlist := pending_playlist p;
     preloaded_sources := m; next_oid := next_oid p |}.

Definition with_next_oid (n : nat) (p : MusicPlayer) : MusicPlayer :=
  {| queue := queue p; current := current p; loop := loop p;
     loop_queue := loop_queue p; pending_playlist := pending_playlist p;
     preloaded_sources := preloaded_sources p; next_oid := n |}.

(** What the transport is given. *)
Inductive AudioSource :=
  | Preloaded (y : YTDLSource)          (* popped from the cache *)
  | Resolved (y : YTDLSource)           (* [YTDLSource.from_url] *)
  | LocalFile (file : string).          (* [FFmpegPCMAudio(self.current.url)] *)

(** The collaborators of the player during one operation: [resolve u] is
    [await YTDLSource.from_url(u)], [None] when it raises;
    [process_youtube q] is [await cog.process_youtube(q, requester)];
    [cog] is [bot.get_cog('MusicCog')]; [voice_client] says whether the
    guild has one, and [vc_play a = false] is a [voice_client.play] that
    raises. *)
Record Env := {
  resolve : string -> option YTDLSource;
  process_youtube : string -> option Found;
  cog : bool;
  voice_client : bool;
  vc_play : AudioSource -> bool
}.

(** The player's collaborators when resolution is [from_url] in a given
    world and download directory. *)
Definition env_of_world (w : World) (fs : FS)
    (search : string -> option Found) (connected : bool) : Env :=
  {| resolve := fun u => handle (from_url w fs u);
     process_youtube := search; cog := true; voice_client := connected;
     vc_play := fun _ => true |}.

(** What the player prints or spawns. *)
Inductive Event :=
  | QueueEmpty                      (* "Queue is empty, nothing to play" *)
  | PlayingFromQueue (s : Song)
  | NoVoiceClient
  | NowPlaying (s : Song) (a : AudioSource)   (* [voice_client.play] succeeded *)
  | ErrorPlaying (s : Song)                   (* "Error playing song: ..." *)
  | SpawnRefill                     (* [create_task(load_next_from_playlist())] *)
  | SpawnPreload.                   (* [create_task(preload_next_song())] *)

(** *** Playlist expansion *)

(** [Song(...)] constructors receive their identities in creation order. *)
Fixpoint allocate (next : nat) (makers : list (nat -> Song)) : list Song :=
  match makers with
  | [] => []
  | mk :: rest => mk next :: allocate (S next) rest
  end.

(** What [ytdl_playlist.extract_info(url, download=False)] gave. *)
Inductive PlaylistInfo :=
  | PlRaised
  | PlNone
  | PlSingle                                   (* no ['entries'] key *)
  | PlEntries (entries : list (option Entry)).

Definition PLAYLIST_CAP : nat := 50.

(** The loop [for entry in entries[:50]: if not entry: continue; ...]. *)
Definition songs_of_entries (req : nat) (l : list (option Entry))
    : list (nat -> Song) :=
  omap (fun entry => (fun e => song_of_entry e req) <$> entry) l.

(** [MusicCog.process_youtube_playlist_fast]; [single] is the answer of
    [process_youtube(url)] for a URL that is no playlist.  [None] is the
    call that raises: after an exception in [extract_info] the final
    [return songs, total_count] reads an unbound [total_count]. *)
Definition process_youtube_playlist_fast (info : PlaylistInfo)
    (single : option Found) (req : nat) : option (list (nat -> Song)) :=
  match info with
  | PlRaised => None
  | PlNone => Some []
  | PlSingle =>
      Some match single with
           | Some yt => [fun o => {| title := f_title yt; url := f_url yt;
                                     duration := f_duration yt; requester := req;
                                     source_type := "youtube";
                                     thumbnail := f_thumbnail yt; oid := o |}]
           | None => []
           end
  | PlEntries entries => Some (songs_of_entries req (take PLAYLIST_CAP entries))
  end.

(** What the Spotify client gave for the URL. *)
Inductive SpotifyData :=
  | SpRaised
  | SpPlaylist (all_tracks : list (option Track))       (* item.get('track') *)
  | SpAlbum (items : list Track) (artist_name : string) (image : option string)
  | SpOther.                       (* neither 'playlist' nor 'album' in the URL *)

(** The playlist loop.  [track['artists'][0]] on a track without artists
    raises; the exception leaves the loop through the outer [except] and
    the songs collected so far are returned. *)
Fixpoint spotify_playlist_songs (req : nat) (items : list (option Track))
    : list (nat -> Song) :=
  match items with
  | [] => []
  | item :: rest =>
      match item with
      | Some track =>
          match truthy (tr_name track) with
          | Some name =>
              match tr_artists track with
              | artist :: _ =>
                  song_of_query (name +:+ " " +:+ artist) (tr_image track) req
                    :: spotify_playlist_songs req rest
              | [] => []
              end
          | None => spotify_playlist_songs req rest
          end
      | None => spotify_playlist_songs req rest
      end
  end.

(** The album loop; [track['name']] raises on a track without a name. *)
Fixpoint spotify_album_songs (req : nat) (artist_name : string)
    (image : option string) (items : list Track) : list (nat -> Song) :=
  match items with
  | [] => []
  | track :: rest =>
      match tr_name track with
      | Some name =>
          song_of_query (name +:+ " " +:+ artist_name) image req
            :: spotify_album_songs req artist_name image rest
      | None => []
      end
  end.

(** [MusicCog.process_spotify_playlist_fast] *)
Definition process_spotify_playlist_fast (spotify_available : bool)
    (d : SpotifyData) (req : nat) : list (nat -> Song) :=
  if negb spotify_available then []
  else match d with
       | SpRaised | SpOther => []
       | SpPlaylist all_tracks =>
           spotify_playlist_songs req (take PLAYLIST_CAP all_tracks)
       | SpAlbum items artist_name image =>
           spotify_album_songs req artist_name image (take PLAYLIST_CAP items)
       end.

(** The append loop of [play]: [for song in songs_added: player.queue.append(song)]. *)
Definition enqueue (makers : list (nat -> Song)) (p : MusicPlayer) : MusicPlayer :=
  with_next_oid (next_oid p + length makers)%nat
    (with_queue (queue p ++ allocate (next_oid p) makers) p).

(** [MusicPlayer.load_next_from_playlist].  An exception inside the [try]
    leaves the player as it is, the index included. *)
Definition load_next_from_playlist (env : Env) (p : MusicPlayer) : MusicPlayer :=
  match pending_playlist p with
  | None => p
  | Some playlist =>
      let idx := current_index playlist in
      if is_spotify playlist then
        match tracks playlist !! idx with
        | None => with_pending None p
        | Some (item, artist_name) =>
            let query :=
              if is_album playlist then
                match item with
                | Some track =>
                    match tr_name track with
                    | Some name => inl (Some (name +:+ " " +:+ artist_name))
                    | None => inl None              (* KeyError *)
                    end
                | None => inl None
                end
              else
                match item with
                | Some track =>
                    match truthy (tr_name track) with
                    | Some name =>
                        match tr_artists track with
                        | artist :: _ => inl (Some (name +:+ " " +:+ artist))
                        | [] => inl None            (* IndexError *)
                        end
                    | None => inr tt                (* skipped: index += 1 *)
                    end
                | None => inr tt
                end in
            match query with
            | inr _ => with_pending (Some (bump playlist)) p
            | inl None => p
            | inl (Some search_query) =>
                let found := if cog env then process_youtube env search_query
                             else None in
                let p1 :=
                  match found with
                  | Some yt =>
                      enqueue [fun o => {| title := f_title yt; url := f_url yt;
                                           duration := f_duration yt;
                                           requester := pl_requester playlist;
                                           source_type := "spotify";
                                           thumbnail := f_thumbnail yt;
                                           oid := o |}] p
                  | None => p
                  end in
                with_pending (Some (bump playlist)) p1
            end
        end
      else
        match entries playlist !! idx with
        | None => with_pending None p
        | Some None => with_pending (Some (bump playlist)) p
        | Some (Some entry) =>
            let duration_str :=
              if cog env then format_duration (en_duration entry) else "Unknown" in
            let mk o :=
              {| title := default "Unknown" (en_title entry);
                 url := entry_url entry; duration := duration_str;
                 requester := pl_requester playlist; source_type := "youtube";
                 thumbnail := en_thumbnail entry; oid := o |} in
            with_pending (Some (bump playlist)) (enqueue [mk] p)
        end
  end.

(** *** Advancing the queue *)

(** The loop-mode reinsertion at the top of [play_next]. *)
Definition reinsert (p : MusicPlayer) : list Song :=
  match current p with
  | Some c =>
      if loop p then c :: queue p
      else if loop_queue p then queue p ++ [c]
      else queue p
  | None => queue p
  end.

(** The [try] block of [play_next] up to the source: the source ([None]
    when [from_url] raises), the song as the block leaves it (a pending
    search is resolved in place) and the cache. *)
Definition acquire (env : Env) (cache : gmap (string * nat) YTDLSource)
    (c : Song) : option AudioSource * Song * gmap (string * nat) YTDLSource :=
  match cache !! song_key c with
  | Some y => (Some (Preloaded y), c, delete (song_key c) cache)
  | None =>
      if String.eqb (source_type c) "local" then (Some (LocalFile (url c)), c, cache)
      else if is_pending_search c then
        let found := if cog env then process_youtube env (search_query_of (url c))
                     else None in
        let c' := match found with Some yt => assign_found yt c | None => c end in
        (Resolved <$> resolve env (url c'), c', cache)
      else (Resolved <$> resolve env (url c), c, cache)
  end.

(** [MusicPlayer.play_next].  The function calls itself after a failed
    start, so the recursion is not structural: [fuel] bounds the number of
    nested calls and [None] is a run that needs more.  The events are what
    the call prints and spawns; spawned tasks run as operations of their
    own.  The branch for a falsy popped song is left out: every element of
    the queue is a [Song], which is truthy. *)
Fixpoint play_next (fuel : nat) (env : Env) (p : MusicPlayer)
    : option (MusicPlayer * list Event) :=
  match fuel with
  | O => None
  | S fuel' =>
      let p1 := with_queue (reinsert p) p in
      let p2 :=
        match queue p1, pending_playlist p1 with
        | [], Some _ => load_next_from_playlist env p1
        | _, _ => p1
        end in
      match queue p2 with
      | [] => Some (with_cache ∅ (with_current None p2), [QueueEmpty])
      | c :: rest =>
          let p3 := with_current (Some c) (with_queue rest p2) in
          let ev := (if pending_playlist p3 is Some _ then [SpawnRefill] else [])
                    ++ [PlayingFromQueue c] in
          if negb (voice_client env) then Some (p3, ev ++ [NoVoiceClient])
          else
            let '(src, c', cache') := acquire env (preloaded_sources p3) c in
            let p4 := with_cache cache' (with_current (Some c') p3) in
            let started :=
              match src with
              | Some a => if vc_play env a then Some a else None
              | None => None
              end in
            match started with
            | Some a =>
                Some (p4, ev ++ [NowPlaying c' a]
                          ++ (if queue p4 is [] then [] else [SpawnPreload]))
            | None =>
                match play_next fuel' env p4 with
                | Some (p', ev') => Some (p', ev ++ [ErrorPlaying c'] ++ ev')
                | None => None
                end
            end
      end
  end.

(** *** Prefetching *)

(** A [preload_next_song] task suspended at its first [await]: the song it
    holds, the key computed on entry, and the search text when the song was
    a pending search. *)
Record PreloadTask := {
  task_song : Song;
  task_key : string * nat;
  task_search : option string
}.

(** [preload_next_song] up to its first [await]; [None] is an early
    [return]. *)
Definition preload_begin (p : MusicPlayer) : option PreloadTask :=
  match queue p with
  | [] => None
  | next_song :: _ =>
      match preloaded_sources p !! song_key next_song with
      | Some _ => None
      | None =>
          if String.eqb (source_type next_song) "local" then None
          else Some {| task_song := next_song;
                       task_key := song_key next_song;
                       task_search :=
                         if is_pending_search next_song
                         then Some (search_query_of (url next_song))
                         else None |}
      end
  end.

(** The object with identity [o], wherever the player holds it. *)
Definition find_obj (o : nat) (p : MusicPlayer) : option Song :=
  match current p with
  | Some c => if Nat.eqb (oid c) o then Some c
              else List.find (fun s => Nat.eqb (oid s) o) (queue p)
  | None => List.find (fun s => Nat.eqb (oid s) o) (queue p)
  end.

(** A mutation of the object with identity [o], seen through every
    reference the player holds. *)
Definition update_obj (o : nat) (f : Song -> Song) (p : MusicPlayer) : MusicPlayer :=
  let g s := if Nat.eqb (oid s) o then f s else s in
  with_current (g <$> current p) (with_queue (g <$> queue p) p).

(** The rest of [preload_next_song], run when the awaited calls are done:
    the in-place update of a pending search, the call of [from_url] and the
    insertion under the key computed on entry.  A raise of [from_url] is
    caught and printed. *)
Definition preload_finish (env : Env) (t : PreloadTask) (p : MusicPlayer)
    : MusicPlayer :=
  let o := oid (task_song t) in
  match task_search t with
  | Some search_query =>
      let found := if cog env then process_youtube env search_query else None in
      let upd := match found with Some yt => assign_found yt | None => fun s => s end in
      let p1 := update_obj o upd p in
      let next_song := default (upd (task_song t)) (find_obj o p1) in
      match resolve env (url next_song) with
      | Some y => with_cache (<[task_key t := y]> (preloaded_sources p1)) p1
      | None => p1
      end
  | None =>
      match resolve env (url (task_song t)) with
      | Some y => with_cache (<[task_key t := y]> (preloaded_sources p)) p
      | None => p
      end
  end.

(** A prefetch that nothing interleaves with. *)
Definition preload_next_song (env : Env) (p : MusicPlayer) : MusicPlayer :=
  match preload_begin p with
  | Some t => preload_finish env t p
  | None => p
  end.

(** *** Commands *)

Inductive Reply :=
  | InvalidPosition (queue_length : nat)
  | Removed (s : Song)
  | NotEnoughSongs
  | Done.

(** [MusicCog.remove] *)
Definition remove (position : Z) (p : MusicPlayer) : MusicPlayer * Reply :=
  if (position <? 1) || (Z.of_nat (length (queue p)) <? position)
  then (p, InvalidPosition (length (queue p)))
  else
    let i := Z.to_nat (position - 1) in
    match queue p !! i with
    | Some removed => (with_queue (delete i (queue p)) p, Removed removed)
    | None => (p, InvalidPosition (length (queue p)))
    end.

(** [MusicCog.shuffle]; [rng] is the reordering [random.shuffle] picks.
    The command also spawns a prefetch of the new head. *)
Definition shuffle (rng : list Song -> list Song) (p : MusicPlayer)
    : MusicPlayer * Reply :=
  if bool_decide (length (queue p) < 2)%nat then (p, NotEnoughSongs)
  else (with_cache ∅ (with_queue (rng (queue p)) p), Done).

(** [MusicCog.clear] *)
Definition clear (p : MusicPlayer) : MusicPlayer :=
  with_cache ∅ (with_queue [] p).

(** [MusicCog.stop], the state part. *)
Definition stop (p : MusicPlayer) : MusicPlayer :=
  with_cache ∅ (with_loops false false (with_current None (with_queue [] p))).

(** [MusicControlView.stop_button] also drops the cursor. *)
Definition stop_button (p : MusicPlayer) : MusicPlayer :=
  with_pending None (stop p).

(** [MusicCog.skip], the state part: the transport is stopped and its
    callback runs [play_next]. *)
Definition skip (p : MusicPlayer) : MusicPlayer :=
  with_loops false (loop_queue p) p.

(** [MusicCog.loop] *)
Definition loop_cmd (mode : string) (p : MusicPlayer) : MusicPlayer :=
  if String.eqb mode "song" then with_loops true false p
  else if String.eqb mode "queue" then with_loops false true p
  else with_loops false false p.

(** [MusicCog.disconnect] with a voice client. *)
Definition disconnect (p : MusicPlayer) : MusicPlayer :=
  with_cache ∅ (with_current None (with_queue [] p)).

(** *** Runs *)

(** The player together with the prefetch tasks that are suspended. *)
Record Sys := {
  player : MusicPlayer;
  inflight : list PreloadTask
}.

Inductive Op :=
  | OpEnqueue (makers : list (nat -> Song))
  | OpPlayNext (fuel : nat)
  | OpPreloadBegin
  | OpPreloadFinish (i : nat)
  | OpRefill
  | OpRemove (position : Z)
  | OpShuffle (rng : list Song -> list Song)
  | OpClear
  | OpStop
  | OpStopButton
  | OpSkip
  | OpLoop (mode : string)
  | OpDisconnect.

Definition on_player (f : MusicPlayer -> MusicPlayer) (s : Sys) : Sys :=
  {| player := f (player s); inflight := inflight s |}.

(** One operation; [None] when it is not enabled (no such task) or when
    [play_next] needs more fuel. *)
Definition step (env : Env) (op : Op) (s : Sys) : option Sys :=
  match op with
  | OpEnqueue makers => Some (on_player (enqueue makers) s)
  | OpPlayNext fuel =>
      match play_next fuel env (player s) with
      | Some (p', _) => Some {| player := p'; inflight := inflight s |}
      | None => None
      end
  | OpPreloadBegin =>
      Some match preload_begin (player s) with
           | Some t => {| player := player s; inflight := inflight s ++ [t] |}
           | None => s
           end
  | OpPreloadFinish i =>
      match inflight s !! i with
      | Some t => Some {| player := preload_finish env t (player s);
                          inflight := delete i (inflight s) |}
      | None => None
      end
  | OpRefill => Some (on_player (load_next_from_playlist env) s)
  | OpRemove position => Some (on_player (fun p => fst (remove position p)) s)
  | OpShuffle rng => Some (on_player (fun p => fst (shuffle rng p)) s)
  | OpClear => Some (on_player clear s)
  | OpStop => Some (on_player stop s)
  | OpStopButton => Some (on_player stop_button s)
  | OpSkip => Some (on_player skip s)
  | OpLoop mode => Some (on_player (loop_cmd mode) s)
  | OpDisconnect => Some (on_player disconnect s)
  end.

Fixpoint run (env : Env) (ops : list Op) (s : Sys) : option Sys :=
  match ops with
  | [] => Some s
  | op :: rest =>
      match step env op s with
      | Some s' => run env rest s'
      | None => None
      end
  end.

Definition start : Sys := {| player := new_player; inflight := [] |}.

(** [n] consecutive calls of [play_next]. *)
Fixpoint advance (n fuel : nat) (env : Env) (p : MusicPlayer) : option MusicPlayer :=
  match n with
  | O => Some p
  | S n' =>
      match play_next fuel env p with
      | Some (p', _) => advance n' fuel env p'
      | None => None
      end
  end.

(** *** Searching and showing *)

(** The info record of a search result; [None] fields are absent keys. *)
Record Info := {
  i_title : option string;
  i_webpage_url : option string;
  i_original_url : option string;
  i_url : option string;
  i_duration : option Z;
  i_thumbnail : option string
}.

(** What [ytdl_search.extract_info(search_query, download=False)] gave to
    [process_youtube]: a raise, a falsy value, a record without
    ['entries'], or the list under ['entries'] with falsy entries as
    [None]. *)
Inductive SearchOutcome :=
  | SearchRaised
  | SearchNothing
  | SearchDict (d : Info)
  | SearchEntries (l : list (option Info)).

(** [f"ytsearch:{query}" if not query.startswith('http') else query] *)
Definition search_text (query : string) : string :=
  if startswith "http" query then query else "ytsearch:" +:+ query.

(** [data.get('webpage_url') or data.get('original_url') or data.get('url') or query] *)
Definition info_url (d : Info) (query : string) : string :=
  match truthy (i_webpage_url d) with
  | Some u => u
  | None =>
      match truthy (i_original_url d) with
      | Some u => u
      | None =>
          match truthy (i_url d) with
          | Some u => u
          | None => query
          end
      end
  end.

(** [MusicCog.process_youtube], given what the extractor answered for
    [search_text query]: the song awaiting its identity, [None] for every
    [return None]. *)
Definition process_youtube_song (query : string) (o : SearchOutcome)
    (req : nat) : option (nat -> Song) :=
  let picked :=
    match o with
    | SearchRaised | SearchNothing => None
    | SearchDict d => Some d
    | SearchEntries [] => None
    | SearchEntries (first :: _) => first
    end in
  match picked with
  | Some d =>
      Some (fun o => {| title := default "Unknown" (i_title d);
                        url := info_url d query;
                        duration := format_duration (i_duration d);
                        requester := req; source_type := "youtube";
                        thumbnail := i_thumbnail d; oid := o |})
  | None => None
  end.

(** The embed of the [queue] command: the "Now Playing" field, the lines
    of the "Up Next" field (joined by newlines in the source) and the
    parts of the footer (joined by [" | "]). *)
Record QueueView := {
  now_playing : option string;
  up_next : list string;
  footer : list string
}.

Definition song_line (s : Song) : string :=
  "**" +:+ title s +:+ "** [" +:+ duration s +:+ "]".

(** [enumerate(list(player.queue)[:10], 1)] *)
Definition numbered (i : nat) (s : Song) : string :=
  "`" +:+ pretty (S i) +:+ ".` " +:+ song_line s.

Definition QUEUE_SHOWN : nat := 10.

(** [f"\n*...and {len(player.queue) - 10} more*"] *)
Definition more_line (n : nat) : string :=
  String "010" ("*...and " +:+ pretty n +:+ " more*").

(** [MusicCog.queue]; [None] is the reply "Queue is empty!". *)
Definition queue_view (p : MusicPlayer) : option QueueView :=
  match current p, queue p with
  | None, [] => None
  | _, _ =>
      Some {| now_playing := song_line <$> current p;
              up_next :=
                imap numbered (take QUEUE_SHOWN (queue p))
                ++ (if bool_decide (QUEUE_SHOWN < length (queue p))%nat
                    then [more_line (length (queue p) - QUEUE_SHOWN)]
                    else []);
              footer :=
                (if loop p then ["🔂 Loop: Song"] else [])
                ++ (if loop_queue p then ["🔁 Loop: Queue"] else []) |}
  end.

(** *** The recursion limit *)

(** How a call of [play_next] ends: it returns, or the interpreter cuts
    the nesting with a [RecursionError].  Either way the player is as the
    call left it, with what was printed so far. *)
Inductive Outcome :=
  | Returned (p : MusicPlayer) (ev : list Event)
  | RecursionError (p : MusicPlayer) (ev : list Event).

(** [MusicPlayer.play_next] under the interpreter's recursion limit:
    [depth] is the number of nested activations of [play_next] the stack
    still admits, and a call beyond it raises on entry.  Every activation
    is a frame and the source never changes the limit, so [depth] is below
    the interpreter's default of 1000.  The nested call stands in the
    [except] block of its caller, so the error is not caught there and
    passes through every activation. *)
Fixpoint play_next_limited (depth : nat) (env : Env) (p : MusicPlayer) : Outcome :=
  match depth with
  | O => RecursionError p []
  | S depth' =>
      let p1 := with_queue (reinsert p) p in
      let p2 :=
        match queue p1, pending_playlist p1 with
        | [], Some _ => load_next_from_playlist env p1
        | _, _ => p1
        end in
      match queue p2 with
      | [] => Returned (with_cache ∅ (with_current None p2)) [QueueEmpty]
      | c :: rest =>
          let p3 := with_current (Some c) (with_queue rest p2) in
          let ev := (if pending_playlist p3 is Some _ then [SpawnRefill] else [])
                    ++ [PlayingFromQueue c] in
          if negb (voice_client env) then Returned p3 (ev ++ [NoVoiceClient])
          else
            let '(src, c', cache') := acquire env (preloaded_sources p3) c in
            let p4 := with_cache cache' (with_current (Some c') p3) in
            let started :=
              match src with
              | Some a => if vc_play env a then Some a else None
              | None => None
              end in
            match started with
            | Some a =>
                Returned p4 (ev ++ [NowPlaying c' a]
                                ++ (if queue p4 is [] then [] else [SpawnPreload]))
            | None =>
                match play_next_limited depth' env p4 with
                | Returned p' ev' => Returned p' (ev ++ [ErrorPlaying c'] ++ ev')
                | RecursionError p' ev' =>
                    RecursionError p' (ev ++ [ErrorPlaying c'] ++ ev')
                end
            end
      end
  end.



End Player.

(** * Properties *)

(** ** The download cache *)

Section DownloadCache.

Import Resolver.

Implicit Types (f g : File) (l : list File) (fs : FS).

(** A directory holds each path once. *)
Definition wf_fs (fs : FS) : Prop := NoDup (path <$> fs).

Definition older_eq (f g : File) : Prop := mtime f <= mtime g.

Lemma insert_by_mtime_perm f l : insert_by_mtime f l ≡ₚ f :: l.
Proof.
  induction l as [|g l IH]; simpl; [done|].
  destruct (mtime f <=? mtime g); [done|].
  rewrite IH. apply perm_swap.
Qed.

Lemma sort_by_mtime_perm l : sort_by_mtime l ≡ₚ l.
Proof.
  induction l as [|f l IH]; simpl; [done|].
  by rewrite insert_by_mtime_perm, IH.
Qed.

Lemma sort_by_mtime_length l : length (sort_by_mtime l) = length l.
Proof. by rewrite sort_by_mtime_perm. Qed.

Lemma insert_by_mtime_sorted f l :
  Sorted older_eq l -> Sorted older_eq (insert_by_mtime f l).
Proof.
  induction 1 as [|g l Hs IH Hhd]; simpl.
  - repeat constructor.
  - destruct (mtime f <=? mtime g) eqn:E.
    + apply Z.leb_le in E. repeat constructor; done.
    + apply Z.leb_gt in E. constructor; [done|].
      destruct l as [|h l]; simpl.
      * constructor. unfold older_eq. lia.
      * inversion Hhd; subst.
        destruct (mtime f <=? mtime h); constructor; unfold older_eq in *; lia.
Qed.

Lemma sort_by_mtime_sorted l : Sorted older_eq (sort_by_mtime l).
Proof.
  induction l; simpl; [constructor|]. by apply insert_by_mtime_sorted.
Qed.

Lemma strongly_sorted_split l1 l2 :
  StronglySorted older_eq (l1 ++ l2) ->
  forall f g, f ∈ l1 -> g ∈ l2 -> older_eq f g.
Proof.
  induction l1 as [|a l1 IH]; simpl; intros Hs f g Hf Hg.
  - by apply elem_of_nil in Hf.
  - inversion Hs as [|? ? Hs' Hall]; subst.
    apply elem_of_cons in Hf as [->|Hf]; [|by eapply IH].
    rewrite Forall_forall in Hall. apply Hall.
    apply elem_of_app. by right.
Qed.

Lemma sorted_prefix_older n l f g :
  f ∈ take n (sort_by_mtime l) -> g ∈ drop n (sort_by_mtime l) -> older_eq f g.
Proof.
  apply strongly_sorted_split. rewrite take_drop.
  apply Sorted_StronglySorted; [|apply sort_by_mtime_sorted].
  intros a b c. unfold older_eq. lia.
Qed.

(** The candidates and the kept files are the matching files, split. *)
Lemma delete_keep_perm fs :
  files_to_delete fs ++ files_to_keep fs ≡ₚ glob_all fs.
Proof.
  unfold files_to_delete, files_to_keep. case_bool_decide.
  - rewrite take_drop. apply sort_by_mtime_perm.
  - done.
Qed.

Lemma files_to_keep_length fs :
  (length (files_to_keep fs) <= MAX_CACHED_SONGS)%nat.
Proof.
  unfold files_to_keep. case_bool_decide; [|lia].
  rewrite length_drop, sort_by_mtime_length. lia.
Qed.

Lemma files_to_delete_in fs f : f ∈ files_to_delete fs -> f ∈ fs.
Proof.
  intros H. assert (f ∈ glob_all fs) as H'.
  { rewrite <- delete_keep_perm. apply elem_of_app. by left. }
  unfold glob_all in H'. by apply list_elem_of_filter in H' as [_ ?].
Qed.

(** The deletion loop removes the paths of the candidates whose
    [os.remove] succeeds, and nothing else. *)
Lemma removal_loop (r : string -> bool) l fs :
  foldl (fun acc f => os_remove r (path f) acc) fs l
  = filter (fun f => path f ∉ path <$> filter (fun d => r (path d) = true) l) fs.
Proof.
  revert fs. induction l as [|d l IH]; intros fs; cbn [foldl].
  - rewrite filter_nil. cbn [fmap list_fmap].
    induction fs as [|f fs IHfs]; [done|].
    rewrite filter_cons_True; [by f_equal|]. apply not_elem_of_nil.
  - rewrite IH. unfold os_remove. destruct (r (path d)) eqn:E.
    + rewrite filter_cons_True by done. rewrite list_filter_filter.
      apply list_filter_iff. intros f. rewrite fmap_cons, not_elem_of_cons. tauto.
    + by rewrite filter_cons_False by congruence.
Qed.

Lemma same_path_same_file fs f g :
  wf_fs fs -> f ∈ fs -> g ∈ fs -> path f = path g -> f = g.
Proof.
  unfold wf_fs. induction fs as [|a fs IH]; intros Hnd Hf Hg Hp.
  - by apply elem_of_nil in Hf.
  - rewrite fmap_cons in Hnd. apply NoDup_cons in Hnd as [Ha Hnd].
    apply elem_of_cons in Hf as [->|Hf]; apply elem_of_cons in Hg as [->|Hg];
      try done.
    + exfalso. apply Ha. rewrite Hp. by apply list_elem_of_fmap_2.
    + exfalso. apply Ha. rewrite <- Hp. by apply list_elem_of_fmap_2.
    + by apply IH.
Qed.

(** Membership after the cleanup: a file goes exactly when it is a
    candidate and its [os.remove] succeeds. *)
Lemma cleanup_elem_of (r : string -> bool) fs f :
  wf_fs fs ->
  f ∈ cleanup_old_downloads r fs <->
  f ∈ fs /\ ~ (f ∈ files_to_delete fs /\ r (path f) = true).
Proof.
  intros Hwf. unfold cleanup_old_downloads. rewrite removal_loop.
  rewrite list_elem_of_filter. split.
  - intros [Hn Hin]. split; [done|]. intros [Hd Hr]. apply Hn.
    apply list_elem_of_fmap_2. by apply list_elem_of_filter.
  - intros [Hin Hn]. split; [|done]. intros Hp.
    apply list_elem_of_fmap in Hp as (d & Hpd & Hd).
    apply list_elem_of_filter in Hd as [Hr Hd].
    assert (f = d) as ->.
    { eapply same_path_same_file; eauto using files_to_delete_in. }
    by apply Hn.
Qed.

Lemma filter_ext_in {A} (P Q : A -> Prop)
    `{!forall x, Decision (P x)} `{!forall x, Decision (Q x)} (l : list A) :
  (forall x, x ∈ l -> (P x <-> Q x)) -> filter P l = filter Q l.
Proof.
  induction l as [|a l IH]; intros Hext; [done|].
  assert (P a <-> Q a) as Ha by (apply Hext; left).
  assert (filter P l = filter Q l) as Hl.
  { apply IH. intros x Hx. apply Hext. by right. }
  rewrite !filter_cons, Hl.
  repeat case_decide; try done; tauto.
Qed.

(** The paths the loop really unlinks. *)
Definition removed_paths (r : string -> bool) fs : list string :=
  path <$> filter (fun d => r (path d) = true) (files_to_delete fs).

Lemma cleanup_glob (r : string -> bool) fs :
  glob_all (cleanup_old_downloads r fs)
  ≡ₚ (failed_deletions r fs
      ++ filter (fun f => path f ∉ removed_paths r fs) (files_to_keep fs)).
Proof.
  unfold cleanup_old_downloads, glob_all. rewrite removal_loop.
  fold (removed_paths r fs).
  rewrite list_filter_filter.
  rewrite (list_filter_iff _ (fun f => (path f ∉ removed_paths r fs)
                                     /\ matches_any (path f) = true))
    by (intros; tauto).
  rewrite <- list_filter_filter. fold (glob_all fs).
  rewrite <- (delete_keep_perm fs) at 1. rewrite filter_app.
  apply Permutation_app; [|done].
  apply eq_subrelation; [apply _|]. unfold failed_deletions.
  apply filter_ext_in. intros d Hd. unfold removed_paths. split.
  - intros Hn. destruct (r (path d)) eqn:E; [|done]. exfalso. apply Hn.
    apply list_elem_of_fmap_2. by apply list_elem_of_filter.
  - intros Hr Hp. apply list_elem_of_fmap in Hp as (d' & Hpd & Hd').
    apply list_elem_of_filter in Hd' as [Hr' _]. congruence.
Qed.

(** The bound on what is left: the three kept files and the candidates
    that could not be deleted. *)
Lemma cleanup_bound (r : string -> bool) fs :
  (length (glob_all (cleanup_old_downloads r fs))
   <= MAX_CACHED_SONGS + length (failed_deletions r fs))%nat.
Proof.
  rewrite cleanup_glob, length_app.
  pose proof (length_filter (fun f => path f ∉ removed_paths r fs)
                (files_to_keep fs)).
  pose proof (files_to_keep_length fs). lia.
Qed.

Lemma failed_deletions_nil (r : string -> bool) fs :
  (forall f, f ∈ files_to_delete fs -> r (path f) = true) ->
  failed_deletions r fs = [].
Proof.
  intros H. unfold failed_deletions.
  induction (files_to_delete fs) as [|d l IH]; [done|].
  rewrite filter_cons_False.
  - apply IH. intros f Hf. apply H. by right.
  - rewrite H by left. done.
Qed.


(** Five artifacts, the oldest of which cannot be deleted. *)
Definition five_files : FS :=
  [ {| path := "/tmp/ytdl_aaaaaaaaaaa.mp3"; mtime := 30 |};
    {| path := "/tmp/ytdl_bbbbbbbbbbb.mp3"; mtime := 10 |};
    {| path := "/tmp/ytdl_ccccccccccc.mp3"; mtime := 20 |};
    {| path := "/tmp/notes.txt"; mtime := 5 |};
    {| path := "/tmp/ytdl_ddddddddddd.mp3"; mtime := 15 |};
    {| path := "/tmp/ytdl_eeeeeeeeeee.mp3"; mtime := 40 |} ].

Definition locked (p : string) : bool :=
  negb (String.eqb p "/tmp/ytdl_bbbbbbbbbbb.mp3").

Lemma five_files_wf : wf_fs five_files.
Proof. unfold wf_fs. apply (bool_decide_unpack _). by vm_compute. Qed.


End DownloadCache.

(** ** The resolution cascade *)

Section Cascade.

Import Resolver.

Variable w : World.

(** The requests of the two providers, in the order of the source. *)
Definition http_cascade (video_id : string) : list string :=
  (piped_url video_id <$> PIPED_INSTANCES)
  ++ (invidious_url video_id <$> INVIDIOUS_INSTANCES).

(** What each of these requests yields: a stream URL or nothing. *)
Definition cascade_answers (video_id : string) : list (option string) :=
  ((fun i => piped_response (http_get w (piped_url video_id i) HTTP_TIMEOUT))
     <$> PIPED_INSTANCES)
  ++ ((fun i => invidious_response (http_get w (invidious_url video_id i) HTTP_TIMEOUT))
        <$> INVIDIOUS_INSTANCES).

(** Position and value of the first answer that is a stream. *)
Fixpoint first_some {A} (l : list (option A)) : option (nat * A) :=
  match l with
  | [] => None
  | Some a :: _ => Some (O, a)
  | None :: rest => (fun ka => (S ka.1, ka.2)) <$> first_some rest
  end.

Definition first_stream (video_id : string) : option string :=
  snd <$> first_some (cascade_answers video_id).

(** How many requests are made. *)
Definition requests_made (video_id : string) : nat :=
  match first_some (cascade_answers video_id) with
  | Some (k, _) => S k
  | None => length (http_cascade video_id)
  end.

Lemma try_instances_exact mk answer l :
  try_instances w mk answer l
  = match first_some ((fun i => answer (http_get w (mk i) HTTP_TIMEOUT)) <$> l) with
    | Some (k, u) =>
        (Some u, (fun i => HttpGet (mk i) HTTP_TIMEOUT) <$> take (S k) l)
    | None => (None, (fun i => HttpGet (mk i) HTTP_TIMEOUT) <$> l)
    end.
Proof.
  induction l as [|i l IH]; [done|].
  cbn [try_instances fmap list_fmap first_some].
  destruct (answer (http_get w (mk i) HTTP_TIMEOUT)) as [u|]; [done|].
  rewrite IH.
  destruct (first_some _) as [[k u]|]; done.
Qed.

Lemma first_some_app {A} (l1 l2 : list (option A)) :
  first_some (l1 ++ l2)
  = match first_some l1 with
    | Some ka => Some ka
    | None => (fun ka => (length l1 + ka.1, ka.2)%nat) <$> first_some l2
    end.
Proof.
  induction l1 as [|[a|] l1 IH]; simpl.
  - by destruct (first_some l2) as [[??]|].
  - done.
  - rewrite IH. destruct (first_some l1) as [[??]|]; [done|].
    by destruct (first_some l2) as [[??]|].
Qed.

Lemma first_some_lt {A} (l : list (option A)) k a :
  first_some l = Some (k, a) -> (k < length l)%nat.
Proof.
  revert k. induction l as [|[b|] l IH]; intros k H; simpl in *.
  - done.
  - injection H as <- _. lia.
  - destruct (first_some l) as [[k' a']|]; [|done].
    simplify_eq/=. specialize (IH _ eq_refl). lia.
Qed.

(** The fallback asks the providers in order, stops at the first stream and
    returns a handle for it when the metadata look-up gives a record. *)
Lemma proxy_fallback_exact url video_id :
  proxy_fallback w url video_id
  = (match first_stream video_id, usable_info (extract_info_proxy w url) with
     | Some u, Some d =>
         Some (mk_source {| ff_input := u; ff_before_options := Some RECONNECT;
                            ff_options := "-vn" |} d)
     | _, _ => None
     end,
     (fun u => HttpGet u HTTP_TIMEOUT)
       <$> take (requests_made video_id) (http_cascade video_id)).
Proof.
  unfold proxy_fallback, get_youtube_stream_piped, get_youtube_stream_invidious,
    first_stream, requests_made, cascade_answers, http_cascade.
  rewrite !try_instances_exact, first_some_app.
  set (pa := (fun i => piped_response _) <$> PIPED_INSTANCES).
  set (ia := (fun i => invidious_response _) <$> INVIDIOUS_INSTANCES).
  destruct (first_some pa) as [[k u]|] eqn:Ep.
  - apply first_some_lt in Ep. unfold pa in Ep. rewrite length_fmap in Ep.
    cbn [fmap option_fmap option_map snd].
    rewrite take_app_le by (rewrite length_fmap; lia).
    rewrite <- fmap_take, <- list_fmap_compose, app_nil_r.
    by destruct (usable_info _).
  - destruct (first_some ia) as [[k u]|] eqn:Ei;
      cbn [fmap option_fmap option_map snd fst].
    + unfold pa. rewrite length_fmap.
      rewrite take_app_ge by (rewrite length_fmap; lia).
      rewrite length_fmap, fmap_app, <- !list_fmap_compose.
      replace (length PIPED_INSTANCES + k - length PIPED_INSTANCES)%nat
        with k by lia.
      replace (S (length PIPED_INSTANCES + k) - length PIPED_INSTANCES)%nat
        with (S k) by lia.
      rewrite <- fmap_take, <- list_fmap_compose.
      by destruct (usable_info _).
    + rewrite firstn_all, fmap_app, <- !list_fmap_compose. done.
Qed.

End Cascade.

Section Resolution.

Import Resolver.

Implicit Types (w : World) (fs : FS) (url : string).

(** The provider-level failures: a timeout, a network error, a status
    other than 200, a body that does not decode, and a body without a
    usable audio entry ([audio] selects the audio entries of a provider's
    answer). *)
Inductive provider_failure (audio : list StreamEntry -> list StreamEntry)
    : HttpOutcome -> Prop :=
  | failure_timeout : provider_failure audio HttpTimeout
  | failure_network : provider_failure audio HttpError
  | failure_status status body :
      status <> 200 -> provider_failure audio (HttpResponse status body)
  | failure_malformed status :
      provider_failure audio (HttpResponse status BodyMalformed)
  | failure_no_audio status entries :
      audio entries = [] ->
      provider_failure audio (HttpResponse status (BodyObject entries)).

Lemma piped_failure_moves_on o :
  provider_failure (fun l => l) o -> piped_response o = None.
Proof.
  intros [| |status body Hs|status|status entries He]; simpl; try done.
  - by apply Z.eqb_neq in Hs as ->.
  - by destruct (status =? 200).
  - rewrite He. by destruct (status =? 200).
Qed.

Lemma invidious_failure_moves_on o :
  provider_failure (List.filter is_audio) o -> invidious_response o = None.
Proof.
  intros [| |status body Hs|status|status entries He]; simpl; try done.
  - by apply Z.eqb_neq in Hs as ->.
  - by destruct (status =? 200).
  - rewrite He. by destruct (status =? 200).
Qed.

(** The handle of a proxy stream. *)
Definition proxy_source (u : string) (d : Data) : YTDLSource :=
  mk_source {| ff_input := u; ff_before_options := Some RECONNECT;
               ff_options := "-vn" |} d.

(** The handle of a download. *)
Definition file_source (f : File) (d : Data) : YTDLSource :=
  mk_source {| ff_input := path f; ff_before_options := None;
               ff_options := "-vn" |} d.

(** The ways the first stage ends without a handle: the run raises (the
    60 s limit among them), exits with a status other than 0, leaves no
    file for the identifier, or the metadata look-up after it gives no
    record. *)
Definition download_fails w fs url (video_id : string) : Prop :=
  let ran := subprocess_run w (ytdlp_cmd video_id url) 60 fs in
  ran.1 = RunRaised
  \/ (exists returncode, ran.1 = RunExit returncode /\ returncode <> 0)
  \/ glob_video video_id ran.2 = []
  \/ usable_info (extract_info_cli w url) = None.

(** C1, as amended.  The downloader runs first with a 60 s limit, and
    its handle is returned when it exits with 0, has left a file and the
    metadata look-up after it gives a non-empty record; nothing else is
    then asked.  In every other case, the failed look-up included, the
    providers are asked, and only when the locator holds an identifier:
    Piped's instances first and then Invidious's, 15 s each, up to the
    first instance that yields a stream.  The handle is that of the first
    stream found, and it is returned only when the metadata look-up made
    after the stream is found gives a non-empty record.  How the earlier
    stages failed plays no part. *)
Theorem cascade_first_success w fs url :
  let video_id_match := re_search_video_id url in
  let video_id := default "unknown" video_id_match in
  let r := from_url w fs url in
  let cli := RunYtdlp (ytdlp_cmd video_id url) 60 in
  (exists n, attempts r
             = cli :: ((fun u => HttpGet u 15) <$> take n (http_cascade video_id)))
  /\ (forall fs1 f rest d,
        subprocess_run w (ytdlp_cmd video_id url) 60 fs = (RunExit 0, fs1) ->
        glob_video video_id fs1 = f :: rest ->
        usable_info (extract_info_cli w url) = Some d ->
        handle r = Some (file_source f d) /\ attempts r = [cli])
  /\ (forall v, download_fails w fs url video_id ->
        video_id_match = Some v ->
        handle r = match first_stream w v, usable_info (extract_info_proxy w url) with
                   | Some u, Some d => Some (proxy_source u d)
                   | _, _ => None
                   end
        /\ attempts r
           = cli :: ((fun u => HttpGet u 15)
                       <$> take (requests_made w v) (http_cascade v)))
  /\ (download_fails w fs url video_id -> video_id_match = None ->
        handle r = None /\ attempts r = [cli])
  /\ (forall o, provider_failure (fun l => l) o -> piped_response o = None)
  /\ (forall o, provider_failure (List.filter is_audio) o ->
                invidious_response o = None).
Proof.
  intros video_id_match video_id r cli.
  assert (download_fails w fs url video_id ->
          (cli_download w fs url video_id).1 = None) as Hfail.
  { unfold download_fails, cli_download. cbv zeta.
    change CLI_TIMEOUT with 60.
    destruct (subprocess_run w (ytdlp_cmd video_id url) 60 fs) as [[|rc] fs1];
      [done|]. simpl.
    intros [?|[(rc' & [= <-] & Hrc)|[Hg|Hi]]]; [done|..].
    - by apply Z.eqb_neq in Hrc as ->.
    - destruct (rc =? 0); [|done]. by rewrite Hg.
    - destruct (rc =? 0); [|done]. destruct (glob_video _ _); [done|].
      by rewrite Hi. }
  assert (forall fs1 f rest d,
            subprocess_run w (ytdlp_cmd video_id url) 60 fs = (RunExit 0, fs1) ->
            glob_video video_id fs1 = f :: rest ->
            usable_info (extract_info_cli w url) = Some d ->
            (cli_download w fs url video_id).1 = Some (file_source f d)) as Hok.
  { intros fs1 f rest d Hrun Hg Hi. unfold cli_download.
    change CLI_TIMEOUT with 60. by rewrite Hrun, Hg, Hi. }
  subst r. unfold from_url. fold video_id_match. fold video_id.
  destruct (cli_download w fs url video_id) as [[src|] fs'] eqn:E;
    cbn [fst] in Hfail, Hok.
  - split; [by exists 0%nat|]. split; [|split; [|split]].
    + intros fs1 f rest d Hrun Hg Hi.
      by rewrite <- (Hok fs1 f rest d Hrun Hg Hi).
    + intros v Hf. by specialize (Hfail Hf).
    + intros Hf. by specialize (Hfail Hf).
    + eauto using piped_failure_moves_on, invidious_failure_moves_on.
  - split; [|split; [|split; [|split]]].
    + destruct video_id_match as [v|] eqn:Ev; [|by exists 0%nat].
      rewrite proxy_fallback_exact. simpl. subst video_id. simpl. eauto.
    + intros fs1 f rest d Hrun Hg Hi. by specialize (Hok fs1 f rest d Hrun Hg Hi).
    + intros v _ ->. by rewrite proxy_fallback_exact.
    + by intros _ ->.
    + eauto using piped_failure_moves_on, invidious_failure_moves_on.
Qed.

(** C9.  Without an extractable identifier a failure of the downloader is
    the failure of the resolution: the only attempt is the downloader's. *)
Theorem no_identifier_no_proxy w fs url :
  re_search_video_id url = None ->
  (cli_download w fs url "unknown").1 = None ->
  handle (from_url w fs url) = None
  /\ attempts (from_url w fs url) = [RunYtdlp (ytdlp_cmd "unknown" url) 60].
Proof.
  intros Hid Hcli. unfold from_url. rewrite Hid. simpl.
  destruct (cli_download w fs url "unknown") as [[src|] fs']; done.
Qed.

(** *** Concrete worlds *)

Definition audio_entry (rate : Z) (u : string) : StreamEntry :=
  {| e_type := "audio/webm"; e_bitrate := Some rate; e_url := Some u |}.

Definition some_info : Data := {[ "title" := "Song" ]}.

(** The downloader exits with status 1 and the metadata extractor raises
    (the site refuses the bot); the first Invidious instance answers. *)
Definition w_blocked : World :=
  {| subprocess_run := fun _ _ fs => (RunExit 1, fs);
     removable := fun _ => true;
     extract_info_cli := fun _ => InfoRaised;
     extract_info_proxy := fun _ => InfoRaised;
     http_get := fun u _ =>
       if String.eqb u "https://iv.ggtyler.dev/api/v1/videos/dQw4w9WgXcQ"
       then HttpResponse 200 (BodyObject [audio_entry 128000 "https://cdn.example/a"])
       else HttpTimeout |}.

(** The same, with a metadata extractor that answers. *)
Definition w_third : World :=
  {| subprocess_run := fun _ _ fs => (RunExit 1, fs);
     removable := fun _ => true;
     extract_info_cli := fun _ => InfoRaised;
     extract_info_proxy := fun _ => InfoDict some_info;
     http_get := http_get w_blocked |}.

Definition watch_url : string := "https://www.youtube.com/watch?v=dQw4w9WgXcQ".

(** C1, as stated, fails: the third stage succeeds (Invidious yields a
    stream after the downloader and Piped have failed), yet no handle is
    returned, because the metadata look-up raises. *)
Lemma cascade_third_stage_lost :
  re_search_video_id watch_url = Some "dQw4w9WgXcQ"
  /\ (cli_download w_blocked [] watch_url "dQw4w9WgXcQ").1 = None
  /\ (get_youtube_stream_piped w_blocked "dQw4w9WgXcQ").1 = None
  /\ (get_youtube_stream_invidious w_blocked "dQw4w9WgXcQ").1
     = Some "https://cdn.example/a"
  /\ handle (from_url w_blocked [] watch_url) = None.
Proof. by vm_compute. Qed.

(** The downloader writes the file and the metadata extractor answers. *)
Definition w_direct : World :=
  {| subprocess_run := fun _ _ fs =>
       (RunExit 0, fs ++ [{| path := "/tmp/ytdl_dQw4w9WgXcQ.mp3"; mtime := 7 |}]);
     removable := fun _ => true;
     extract_info_cli := fun _ => InfoDict some_info;
     extract_info_proxy := fun _ => InfoRaised;
     http_get := fun _ _ => HttpTimeout |}.

Lemma cascade_first_success_witness :
  (handle (from_url w_third [] watch_url)
   = Some (proxy_source "https://cdn.example/a" some_info)
   /\ attempts (from_url w_third [] watch_url)
      = RunYtdlp (ytdlp_cmd "dQw4w9WgXcQ" watch_url) 60
        :: ((fun u => HttpGet u 15) <$> take 4 (http_cascade "dQw4w9WgXcQ")))
  /\ (handle (from_url w_direct [] watch_url)
      = Some (file_source {| path := "/tmp/ytdl_dQw4w9WgXcQ.mp3"; mtime := 7 |}
                          some_info)
      /\ attempts (from_url w_direct [] watch_url)
         = [RunYtdlp (ytdlp_cmd "dQw4w9WgXcQ" watch_url) 60])
  /\ (handle (from_url w_third [] "never gonna give you up") = None
      /\ attempts (from_url w_third [] "never gonna give you up")
         = [RunYtdlp (ytdlp_cmd "unknown" "never gonna give you up") 60]).
Proof.
  split; [|split].
  - destruct (cascade_first_success w_third [] watch_url) as (_ & _ & H & _).
    apply (H "dQw4w9WgXcQ"); [|reflexivity].
    right. left. exists 1. split; [reflexivity|lia].
  - destruct (cascade_first_success w_direct [] watch_url) as (_ & H & _).
    apply (H [{| path := "/tmp/ytdl_dQw4w9WgXcQ.mp3"; mtime := 7 |}] _ []);
      reflexivity.
  - destruct (cascade_first_success w_third [] "never gonna give you up")
      as (_ & _ & _ & H & _).
    apply H; [|reflexivity].
    right. left. exists 1. split; [reflexivity|lia].
Defined.

Lemma no_identifier_no_proxy_witness :
  handle (from_url w_third [] "never gonna give you up") = None
  /\ attempts (from_url w_third [] "never gonna give you up")
     = [RunYtdlp (ytdlp_cmd "unknown" "never gonna give you up") 60].
Proof.
  apply no_identifier_no_proxy; reflexivity.
Defined.

End Resolution.

(** ** Queue commands *)

Section Commands.

Import Resolver Player.

Implicit Types (p : MusicPlayer) (s : Song) (position : Z).


(** C10.  A position outside [1 .. len(queue)] is refused and the player
    is left as it is; a position inside removes the song at that 1-based
    position and nothing else: the songs before and after it keep their
    order, and [current] and every other field are untouched. *)
Theorem remove_position p position :
  ((position < 1 \/ Z.of_nat (length (queue p)) < position) ->
     remove position p = (p, InvalidPosition (length (queue p))))
  /\ (1 <= position <= Z.of_nat (length (queue p)) ->
      exists removed,
        let i := Z.to_nat (position - 1) in
        queue p !! i = Some removed
        /\ remove position p
           = (with_queue (take i (queue p) ++ drop (S i) (queue p)) p,
              Removed removed)
        /\ queue p = take i (queue p) ++ removed :: drop (S i) (queue p)
        /\ current (remove position p).1 = current p
        /\ length (queue (remove position p).1) = (length (queue p) - 1)%nat).
Proof.
  split.
  - intros H. unfold remove.
    assert ((position <? 1) || (Z.of_nat (length (queue p)) <? position) = true)
      as ->; [|done].
    apply orb_true_iff. rewrite !Z.ltb_lt. done.
  - intros H. unfold remove.
    assert ((position <? 1) || (Z.of_nat (length (queue p)) <? position) = false)
      as ->.
    { apply orb_false_iff. rewrite !Z.ltb_ge. lia. }
    destruct (lookup_lt_is_Some_2 (queue p) (Z.to_nat (position - 1)))
      as [removed Hr]; [lia|].
    exists removed. cbn zeta. rewrite Hr. rewrite delete_take_drop.
    split; [done|]. split; [done|]. split.
    { by rewrite (take_drop_middle _ _ _ Hr). }
    split; [done|]. cbn [fst queue with_queue].
    rewrite length_app, length_take, length_drop.
    apply lookup_lt_Some in Hr. lia.
Qed.

Definition song (t u kind : string) (o : nat) : Song :=
  {| title := t; url := u; duration := "3:33"; requester := 7;
     source_type := kind; thumbnail := None; oid := o |}.

Definition song_a : Song := song "A" "https://www.youtube.com/watch?v=aaaaaaaaaaa" "youtube" 1.
Definition song_b : Song := song "B" "https://www.youtube.com/watch?v=bbbbbbbbbbb" "youtube" 2.
Definition song_c : Song := song "C" "https://www.youtube.com/watch?v=ccccccccccc" "youtube" 3.

Lemma remove_position_witness :
  remove 2 (with_queue [song_a; song_b; song_c] new_player)
  = (with_queue [song_a; song_c] new_player, Removed song_b)
  /\ remove 4 (with_queue [song_a; song_b; song_c] new_player)
     = (with_queue [song_a; song_b; song_c] new_player, InvalidPosition 3).
Proof.
  destruct (remove_position (with_queue [song_a; song_b; song_c] new_player) 2)
    as [_ H2].
  destruct (remove_position (with_queue [song_a; song_b; song_c] new_player) 4)
    as [H4 _].
  destruct H2 as (removed & Hl & Heq & _); [simpl; lia|].
  split.
  - rewrite Heq. simpl in Hl. by injection Hl as <-.
  - apply H4. simpl. lia.
Defined.

(** Shuffle and clear empty the prefetch cache. *)
Lemma shuffle_clears rng p p' :
  shuffle rng p = (p', Done) -> preloaded_sources p' = ∅.
Proof.
  unfold shuffle. case_bool_decide; [done|]. by intros [= <-].
Qed.

Lemma clear_clears p : preloaded_sources (clear p) = ∅ /\ queue (clear p) = [].
Proof. done. Qed.

(** *** A player with a prefetched head *)

Definition handle_of (u : string) : YTDLSource :=
  mk_source {| ff_input := "/tmp/ytdl_x.mp3"; ff_before_options := None;
               ff_options := "-vn" |} {[ "webpage_url" := u ]}.

(** [song_c] is playing, [song_a] and [song_b] wait, and the prefetch of
    the head [song_a] has completed. *)
Definition p_prefetched : MusicPlayer :=
  {| queue := [song_a; song_b]; current := Some song_c; loop := false;
     loop_queue := false; pending_playlist := None;
     preloaded_sources := {[ song_key song_a := handle_of (url song_a) ]};
     next_oid := 4 |}.

(** C3 at the failing input: removing the head leaves the prefetched
    entry of the removed song in the cache, although the head is now
    another song, for which the cache has nothing. *)
Theorem remove_head_keeps_prefetch :
  let p' := (remove 1 p_prefetched).1 in
  queue p' = [song_b]
  /\ preloaded_sources p' = {[ song_key song_a := handle_of (url song_a) ]}
  /\ preloaded_sources p' !! song_key song_b = None
  /\ preloaded_sources (clear p_prefetched) = ∅.
Proof. repeat split; reflexivity. Qed.

End Commands.

(** ** The prefetch cache *)

Section Prefetch.

Import Resolver Player.

Local Open Scope nat_scope.

Implicit Types (env : Env) (p : MusicPlayer) (t : PreloadTask) (s : Sys).

(** The song a task resolves once its search, if any, is done. *)
Definition searched env t : Song :=
  match task_search t with
  | Some search_query =>
      match (if cog env then process_youtube env search_query else None) with
      | Some yt => assign_found yt (task_song t)
      | None => task_song t
      end
  | None => task_song t
  end.

Lemma preload_begin_head p t :
  preload_begin p = Some t ->
  exists next_song rest,
    queue p = next_song :: rest
    /\ task_song t = next_song
    /\ task_key t = song_key next_song
    /\ preloaded_sources p !! song_key next_song = None.
Proof.
  unfold preload_begin. destruct (queue p) as [|x rest]; [done|].
  destruct (preloaded_sources p !! song_key x) eqn:E; [done|].
  destruct (String.eqb _ _); [done|]. intros [= <-].
  exists x, rest. done.
Qed.

(** C4, as amended.  When [stop] has emptied the cache while a prefetch
    is in flight, the completion of the prefetch inserts its result under
    the key computed when it began, without a look at the queue: the
    cache then holds exactly that entry, and stays empty only when the
    resolution of the prefetch fails. *)
Theorem stop_then_prefetch_completes env p t :
  preload_begin p = Some t ->
  (exists next_song rest, queue p = next_song :: rest
                          /\ task_key t = song_key next_song)
  /\ queue (stop p) = []
  /\ preloaded_sources (stop p) = ∅
  /\ preloaded_sources (preload_finish env t (stop p))
     = match resolve env (url (searched env t)) with
       | Some y => {[ task_key t := y ]}
       | None => ∅
       end.
Proof.
  intros Hb. split.
  { apply preload_begin_head in Hb as (x & rest & ? & ? & ? & ?). eauto. }
  split; [done|]. split; [done|].
  unfold preload_finish, searched.
  destruct (task_search t) as [q|].
  - destruct (if cog env then process_youtube env q else None) as [yt|];
      cbn [update_obj find_obj stop with_cache with_loops with_current with_queue
           queue current fmap option_fmap option_map list_fmap List.find default
           from_option];
      destruct (resolve env _); try done; cbn; by rewrite insert_empty.
  - destruct (resolve env _); [|done]. cbn. by rewrite insert_empty.
Qed.

(** Everything resolves, every search finds a video, the transport
    starts whatever it is given. *)
Definition env_ok : Env :=
  {| resolve := fun u => Some (handle_of u);
     process_youtube := fun q =>
       Some {| f_title := q; f_url := "https://www.youtube.com/watch?v=" +:+ q;
               f_duration := "1:00"; f_thumbnail := None |};
     cog := true; voice_client := true; vc_play := fun _ => true |}.

(** [song_c] is playing and [song_b] is the head of the queue. *)
Definition p_waiting : MusicPlayer :=
  {| queue := [song_b]; current := Some song_c; loop := false;
     loop_queue := false; pending_playlist := None;
     preloaded_sources := ∅; next_oid := 4 |}.

Definition task_b : PreloadTask :=
  {| task_song := song_b; task_key := song_key song_b; task_search := None |}.

(** C4, as stated, fails: the prefetch of [song_b] begins, [stop] clears
    queue and cache, the prefetch completes, and the cache holds the
    handle of [song_b]. *)
Lemma stop_prefetch_not_discarded :
  preload_begin p_waiting = Some task_b
  /\ queue (stop p_waiting) = []
  /\ preloaded_sources (stop p_waiting) = ∅
  /\ preloaded_sources (preload_finish env_ok task_b (stop p_waiting))
       !! song_key song_b = Some (handle_of (url song_b))
  /\ preloaded_sources (preload_finish env_ok task_b (stop p_waiting)) <> ∅.
Proof.
  repeat split; try reflexivity.
  intros H.
  assert (preloaded_sources (preload_finish env_ok task_b (stop p_waiting))
            !! song_key song_b = Some (handle_of (url song_b))) as Hl
    by reflexivity.
  rewrite H in Hl. by rewrite lookup_empty in Hl.
Qed.

Lemma stop_then_prefetch_completes_witness :
  preloaded_sources (preload_finish env_ok task_b (stop p_waiting))
  = {[ song_key song_b := handle_of (url song_b) ]}.
Proof.
  destruct (stop_then_prefetch_completes env_ok p_waiting task_b eq_refl)
    as (_ & _ & _ & H).
  exact H.
Defined.

(** *** Size of the cache along a run *)

Lemma load_next_cache env p :
  preloaded_sources (load_next_from_playlist env p) = preloaded_sources p.
Proof.
  unfold load_next_from_playlist.
  repeat (match goal with
          | |- context [match ?x with _ => _ end] => destruct x
          end; try done).
Qed.












(** A queue of one video and two Spotify tracks still to be searched. *)
Definition spotify_run : list Op :=
  [ OpEnqueue [ song "A" "https://www.youtube.com/watch?v=aaaaaaaaaaa" "youtube";
                song_of_query "one" None 7;
                song_of_query "two" None 7 ];
    OpPlayNext 1; OpPreloadBegin; OpPreloadFinish 0;
    OpPlayNext 1; OpPreloadBegin; OpPreloadFinish 0 ].

(** The same size is reached without any interleaving: the prefetch of a
    pending search is stored under the key of the search text, the song is
    played under the key of the video found, so the entry is not consumed
    and the next prefetch adds a second one. *)
Remark pending_search_entry_stays :
  (fun s => (size (preloaded_sources (player s)),
             oid <$> current (player s),
             oid <$> queue (player s)))
    <$> run env_ok spotify_run start
  = Some (2, Some 1, [2]).
Proof. vm_compute. reflexivity. Qed.





End Prefetch.

(** ** Advancing through the queue *)

Section Scheduler.

Import Resolver Player.

Local Open Scope nat_scope.

Implicit Types (env : Env) (p : MusicPlayer) (s c : Song) (m : Cache).

Lemma acquire_oid env m c : oid (acquire env m c).1.2 = oid c.
Proof.
  unfold acquire. destruct (m !! song_key c); [done|].
  destruct (String.eqb _ _); [done|].
  destruct (is_pending_search c); [|done]. simpl.
  by destruct (if cog env then _ else _).
Qed.

Lemma acquire_source_type env m c :
  source_type (acquire env m c).1.2 = source_type c.
Proof.
  unfold acquire. destruct (m !! song_key c); [done|].
  destruct (String.eqb _ _); [done|].
  destruct (is_pending_search c); [|done]. simpl.
  by destruct (if cog env then _ else _).
Qed.

(** One call under repeat-song: the current song goes to the head and is
    popped again. *)
Lemma play_next_repeat fuel env p s p' ev :
  loop p = true -> current p = Some s ->
  play_next fuel env p = Some (p', ev) ->
  queue p' = queue p /\ loop p' = true
  /\ exists s', current p' = Some s' /\ oid s' = oid s.
Proof.
  revert p s p' ev. induction fuel as [|fuel IH]; intros p s p' ev Hl Hc; [done|].
  cbn [play_next]. unfold reinsert. rewrite Hc, Hl.
  cbn [queue with_queue pending_playlist].
  destruct (negb (voice_client env)).
  { intros [= <- _]. simpl. eauto. }
  cbn [preloaded_sources with_current with_queue].
  pose proof (acquire_oid env (preloaded_sources p) s) as Ho.
  destruct (acquire env (preloaded_sources p) s) as [[src c'] cache'].
  simpl in Ho.
  match goal with
  | |- context [match ?st with Some _ => _ | None => _ end = _] =>
      destruct st as [a|]
  end.
  - intros [= <- _]. simpl. eauto.
  - destruct (play_next fuel env _) as [[p'' ev'']|] eqn:Er; [|done].
    intros [= <- _].
    apply (IH _ c') in Er; [|done..].
    destruct Er as (Hq & Hl' & s' & Hs' & Ho').
    simpl in Hq. split; [done|]. split; [done|].
    exists s'. split; [done|]. congruence.
Qed.

Lemma play_next_repeat_returns env p s :
  loop p = true -> current p = Some s ->
  voice_client env = false
  \/ ((forall u, is_Some (resolve env u)) /\ (forall a, vc_play env a = true)) ->
  is_Some (play_next 1 env p).
Proof.
  intros Hl Hc Hlive. cbn [play_next]. unfold reinsert. rewrite Hc, Hl.
  cbn [queue with_queue pending_playlist].
  destruct (voice_client env) eqn:Hv; simpl; [|done].
  destruct Hlive as [?|[Hres Hplay]]; [done|].
  assert (is_Some (acquire env (preloaded_sources p) s).1.1) as [a Ha].
  { unfold acquire. destruct (_ !! _); [done|].
    destruct (String.eqb _ _); [done|].
    destruct (is_pending_search s); simpl;
      match goal with
      | |- context [resolve env ?u] => destruct (Hres u) as [y ->]
      end; done. }
  destruct (acquire env (preloaded_sources p) s) as [[src c'] cache'].
  simpl in Ha. subst src. rewrite Hplay. done.
Qed.

(** C6.  Under repeat-song with a current song, any number of consecutive
    calls of [play_next] that return leave the queue as it was, so its
    length too, and [current] is the same song object every time; each
    call does return when there is no voice client or when resolution
    and the transport succeed. *)
Theorem repeat_song_invariant env (n fuel : nat) p s :
  loop p = true -> current p = Some s ->
  (forall p', advance n fuel env p = Some p' ->
     queue p' = queue p
     /\ length (queue p') = length (queue p)
     /\ (exists s', current p' = Some s' /\ oid s' = oid s)
     /\ loop p' = true)
  /\ (voice_client env = false
      \/ ((forall u, is_Some (resolve env u)) /\ (forall a, vc_play env a = true)) ->
      is_Some (advance n 1 env p)).
Proof.
  revert p s. induction n as [|n IH]; intros p s Hl Hc.
  - split; [|done]. intros p' [= <-].
    split; [done|]. split; [done|]. split; [by exists s|done].
  - split.
    + intros p'. cbn [advance].
      destruct (play_next fuel env p) as [[p1 ev]|] eqn:E; [|done].
      destruct (play_next_repeat _ _ _ _ _ _ Hl Hc E) as (Hq & Hl1 & s1 & Hc1 & Ho).
      intros Ha. destruct (IH p1 s1 Hl1 Hc1) as [Hinv _].
      destruct (Hinv p' Ha) as (Hq' & _ & (s' & Hs' & Ho') & Hl').
      split; [congruence|]. split; [congruence|]. split; [|done].
      exists s'. split; [done|]. congruence.
    + intros Hlive. cbn [advance].
      destruct (play_next_repeat_returns env p s Hl Hc Hlive) as [[p1 ev] E].
      rewrite E.
      destruct (play_next_repeat _ _ _ _ _ _ Hl Hc E) as (_ & Hl1 & s1 & Hc1 & _).
      by apply (IH p1 s1).
Qed.

(** [song_c] repeats in front of [song_a] and [song_b]. *)
Definition p_repeat : MusicPlayer := with_loops true false p_prefetched.

Lemma repeat_song_invariant_witness :
  exists p', advance 5 1 env_ok p_repeat = Some p'
             /\ queue p' = [song_a; song_b]
             /\ length (queue p') = 2
             /\ (exists s', current p' = Some s' /\ oid s' = 3)
             /\ loop p' = true.
Proof.
  destruct (repeat_song_invariant env_ok 5 1 p_repeat song_c eq_refl eq_refl)
    as [Hinv Hlive].
  destruct Hlive as [p' Hp'].
  { right. split; [intros u; by eexists|done]. }
  exists p'. split; [exact Hp'|]. exact (Hinv p' Hp').
Defined.

(** *** Systematic failure *)




(** The fuel of [play_next] is the depth the interpreter admits: the call
    returns within the limit exactly when the fuel suffices. *)
Lemma play_next_limited_returns depth env p :
  play_next depth env p
  = match play_next_limited depth env p with
    | Returned p' ev => Some (p', ev)
    | RecursionError _ _ => None
    end.
Proof.
  revert p. induction depth as [|depth IH]; intros p; [done|].
  cbn [play_next play_next_limited].
  destruct (queue _) as [|c rest]; [done|].
  destruct (negb (voice_client env)); [done|].
  destruct (acquire env _ c) as [[src c'] cache'].
  match goal with
  | |- context [match ?st with Some _ => _ | None => _ end] =>
      destruct st as [a|]
  end; [done|].
  rewrite IH. by destruct (play_next_limited depth env _).
Qed.












End Scheduler.

(** ** Playlist expansion *)

Section Playlists.

Import Resolver Player.

Local Open Scope nat_scope.

Implicit Types (env : Env) (p : MusicPlayer) (req : nat).

Lemma songs_of_entries_length req (l : list (option Entry)) :
  length (songs_of_entries req l) <= length l.
Proof.
  unfold songs_of_entries. induction l as [|[e|] l IH]; cbn in *; lia.
Qed.

Lemma spotify_playlist_songs_length req (l : list (option Track)) :
  length (spotify_playlist_songs req l) <= length l.
Proof.
  induction l as [|[track|] l IH]; simpl; [lia| |lia].
  destruct (truthy (tr_name track)); [|lia].
  destruct (tr_artists track); simpl; lia.
Qed.

Lemma spotify_album_songs_length req artist image (l : list Track) :
  length (spotify_album_songs req artist image l) <= length l.
Proof.
  induction l as [|track l IH]; simpl; [lia|].
  destruct (tr_name track); simpl; lia.
Qed.

Lemma allocate_length next (makers : list (nat -> Song)) :
  length (allocate next makers) = length makers.
Proof.
  revert next. induction makers as [|mk l IH]; intros next; simpl; [done|].
  by rewrite IH.
Qed.

Lemma load_next_none env p :
  pending_playlist p = None -> load_next_from_playlist env p = p.
Proof. unfold load_next_from_playlist. by intros ->. Qed.

(** One refill appends at most one song. *)
Lemma load_next_queue env p :
  length (queue (load_next_from_playlist env p)) <= S (length (queue p)).
Proof.
  unfold load_next_from_playlist, enqueue.
  repeat case_match; simpl; rewrite ?length_app; simpl; lia.
Qed.

Lemma play_next_pending fuel env p p' ev :
  pending_playlist p = None ->
  play_next fuel env p = Some (p', ev) -> pending_playlist p' = None.
Proof.
  revert p p' ev. induction fuel as [|fuel IH]; intros p p' ev Hp; [done|].
  cbn [play_next]. cbn [pending_playlist with_queue]. rewrite Hp.
  assert (match queue (with_queue (reinsert p) p) with
          | [] | _ => with_queue (reinsert p) p
          end = with_queue (reinsert p) p) as -> by (by destruct (queue _)).
  cbn [queue with_queue].
  destruct (reinsert p) as [|c rest].
  { intros [= <- _]. done. }
  destruct (negb (voice_client env)).
  { intros [= <- _]. done. }
  destruct (acquire env _ c) as [[src c'] cache'].
  match goal with
  | |- context [match ?st with Some _ => _ | None => _ end = _] =>
      destruct st as [a|]
  end.
  - intros [= <- _]. done.
  - destruct (play_next fuel env _) as [[p'' ev'']|] eqn:Er; [|done].
    intros [= <- _]. by apply IH in Er.
Qed.

Lemma step_pending env op s s' :
  pending_playlist (player s) = None ->
  step env op s = Some s' -> pending_playlist (player s') = None.
Proof.
  intros Hp. destruct op; simpl; try (intros [= <-]; done).
  - destruct (play_next fuel env (player s)) as [[p' ev]|] eqn:E; [|done].
    intros [= <-]. simpl. by eapply play_next_pending.
  - intros [= <-]. by destruct (preload_begin (player s)).
  - destruct (inflight s !! i) as [t|]; [|done]. intros [= <-]. simpl.
    unfold preload_finish. destruct (task_search t).
    + by destruct (resolve env _).
    + by destruct (resolve env _).
  - intros [= <-]. simpl. by rewrite load_next_none.
  - intros [= <-]. simpl. unfold remove. destruct (_ || _); [done|].
    by destruct (queue (player s) !! _).
  - intros [= <-]. simpl. unfold shuffle. by case_bool_decide.
  - intros [= <-]. simpl. unfold loop_cmd.
    by repeat (destruct (String.eqb _ _)).
Qed.

Lemma run_pending env ops s s' :
  pending_playlist (player s) = None ->
  run env ops s = Some s' -> pending_playlist (player s') = None.
Proof.
  revert s. induction ops as [|op ops IH]; intros s Hp; simpl.
  - by intros [= <-].
  - destruct (step env op s) as [s1|] eqn:E; [|done].
    apply IH. by eapply step_pending.
Qed.

(** C7.  An enqueued playlist or album contributes at most 50 songs: both
    batch expansions cut the entry list at 50 before building songs, the
    play command appends exactly the songs an expansion returns, and the
    lazy refill adds nothing, because no operation ever installs a
    playlist cursor (a refill without a cursor leaves the player as it
    is; with one it would append one song per call at most). *)
Theorem playlist_cap :
  PLAYLIST_CAP = 50
  /\ (forall info single req makers,
        process_youtube_playlist_fast info single req = Some makers ->
        length makers <= 50)
  /\ (forall available d req,
        length (process_spotify_playlist_fast available d req) <= 50)
  /\ (forall makers p,
        queue (enqueue makers p) = queue p ++ allocate (next_oid p) makers
        /\ length (queue (enqueue makers p)) = length (queue p) + length makers
        /\ pending_playlist (enqueue makers p) = pending_playlist p)
  /\ (forall env ops s',
        run env ops start = Some s' ->
        pending_playlist (player s') = None
        /\ load_next_from_playlist env (player s') = player s')
  /\ (forall env p,
        length (queue (load_next_from_playlist env p)) <= S (length (queue p))).
Proof.
  split; [done|]. split.
  { intros info single req makers. unfold process_youtube_playlist_fast.
    destruct info as [| | |entries]; [done| | |].
    - intros [= <-]. simpl. lia.
    - intros [= <-]. destruct single; simpl; lia.
    - intros [= <-].
      pose proof (songs_of_entries_length req (take PLAYLIST_CAP entries)) as H.
      rewrite length_take in H. unfold PLAYLIST_CAP in *. lia. }
  split.
  { intros available d req. unfold process_spotify_playlist_fast.
    destruct available; simpl; [|lia].
    destruct d as [|all_tracks|items artist image|]; simpl; try lia.
    - pose proof (spotify_playlist_songs_length req (take PLAYLIST_CAP all_tracks))
        as H.
      rewrite length_take in H. unfold PLAYLIST_CAP in *. lia.
    - pose proof (spotify_album_songs_length req artist image
                    (take PLAYLIST_CAP items)) as H.
      rewrite length_take in H. unfold PLAYLIST_CAP in *. lia. }
  split.
  { intros makers p. split; [done|]. split; [|done].
    simpl. by rewrite length_app, allocate_length. }
  split; [|apply load_next_queue].
  intros env ops s' Hr.
  assert (pending_playlist (player s') = None) as Hp
    by (by eapply run_pending; [|exact Hr]).
  split; [done|]. by apply load_next_none.
Qed.

(** A playlist of sixty entries. *)
Definition sixty : list (option Entry) :=
  replicate 60 (Some {| en_id := Some "aaaaaaaaaaa"; en_title := Some "T";
                        en_duration := Some 65%Z; en_webpage_url := None;
                        en_url := None; en_thumbnail := None |}).

Definition enqueue_a : list Op :=
  [ OpEnqueue [song "A" "https://www.youtube.com/watch?v=aaaaaaaaaaa" "youtube"];
    OpRefill; OpStop ].

Definition s_enqueued : Sys :=
  {| player := with_next_oid 1 new_player; inflight := [] |}.

Lemma playlist_cap_witness :
  length (songs_of_entries 7 (take PLAYLIST_CAP sixty)) <= 50
  /\ pending_playlist (player s_enqueued) = None
  /\ load_next_from_playlist env_ok (player s_enqueued) = player s_enqueued.
Proof.
  destruct playlist_cap as (_ & Hy & _ & _ & Hrun & _).
  split.
  - apply (Hy (PlEntries sixty) None 7). reflexivity.
  - apply (Hrun env_ok enqueue_a s_enqueued). reflexivity.
Defined.

End Playlists.

(** * Further properties *)

(** ** Identifiers and artifacts *)

Section Artifacts.

Import Resolver.

Implicit Types (s v p : string) (c : ascii) (fs : FS).

(** Every character of [s] satisfies [P]. *)
Fixpoint all_chars (P : ascii -> bool) (s : string) : bool :=
  match s with
  | EmptyString => true
  | String c s' => P c && all_chars P s'
  end.

Lemma append_cons c a b : String c a +:+ b = String c (a +:+ b).
Proof. done. Qed.

Lemma append_nil b : "" +:+ b = b.
Proof. done. Qed.

Lemma strip_prefix_Some a s r : strip_prefix a s = Some r <-> s = a +:+ r.
Proof.
  revert s. induction a as [|c a IH]; intros s;
    rewrite ?append_cons, ?append_nil; simpl.
  - split; [by intros [= ->]|by intros ->].
  - destruct s as [|d s]; [done|].
    destruct (Ascii.eqb_spec c d) as [->|Hne].
    + rewrite IH. split; [by intros ->|by intros [= ->]].
    + split; [done|]. intros [= ? ?]. done.
Qed.

Lemma strip_prefix_app a r : strip_prefix a (a +:+ r) = Some r.
Proof. by apply strip_prefix_Some. Qed.

Lemma has_char_app c a b : has_char c (a +:+ b) = has_char c a || has_char c b.
Proof.
  induction a as [|d a IH]; rewrite ?append_cons, ?append_nil; simpl; [done|].
  by destruct (Ascii.eqb c d).
Qed.

Lemma append_assoc a b d : (a +:+ b) +:+ d = a +:+ (b +:+ d).
Proof.
  induction a as [|x a IH]; [done|]. by rewrite !append_cons, IH.
Qed.

Lemma all_chars_has_char P c s :
  all_chars P s = true -> P c = false -> has_char c s = false.
Proof.
  intros Hs Hc. induction s as [|d s IH]; simpl in *; [done|].
  apply andb_true_iff in Hs as [Hd Hs].
  destruct (Ascii.eqb_spec c d) as [->|_]; [congruence|by apply IH].
Qed.

Lemma take_id_spec n s v :
  take_id n s = Some v ->
  String.length v = n /\ all_chars is_id_char v = true
  /\ exists rest, s = v +:+ rest.
Proof.
  revert s v. induction n as [|n IH]; intros s v; simpl.
  - intros [= <-]. split; [done|]. split; [done|]. by exists s.
  - destruct s as [|c s]; [done|].
    destruct (is_id_char c) eqn:Ec; [|done].
    destruct (take_id n s) as [v'|] eqn:E; [|done].
    intros [= <-]. destruct (IH _ _ E) as (Hl & Ha & rest & ->).
    simpl. rewrite Hl, Ec, Ha. split; [done|]. split; [done|]. by exists rest.
Qed.

Lemma re_search_video_id_spec url v :
  re_search_video_id url = Some v ->
  String.length v = 11%nat
  /\ all_chars is_id_char v = true
  /\ exists before sep after,
       (sep = "v=" \/ sep = "/") /\ url = before +:+ sep +:+ v +:+ after.
Proof.
  induction url as [|c url IH]; [done|]. cbn [re_search_video_id].
  set (here := if Ascii.eqb c "/" then _ else _).
  destruct here as [v'|] eqn:Eh.
  - intros [= ->]. subst here.
    destruct (Ascii.eqb_spec c "/") as [->|_].
    + destruct (take_id_spec _ _ _ Eh) as (Hl & Ha & rest & ->).
      split; [done|]. split; [done|]. exists "", "/", rest. by split; [right|].
    + destruct (Ascii.eqb_spec c "v") as [->|_]; [|done].
      destruct url as [|d url]; [done|].
      destruct (Ascii.eqb_spec d "=") as [->|_]; [|done].
      destruct (take_id_spec _ _ _ Eh) as (Hl & Ha & rest & ->).
      split; [done|]. split; [done|]. exists "", "v=", rest. by split; [left|].
  - intros Hr. destruct (IH Hr) as (Hl & Ha & before & sep & after & Hs & ->).
    split; [done|]. split; [done|].
    exists (String c before), sep, after. by split.
Qed.

(** X1.  An identifier found in a locator is a run of exactly eleven
    characters of the class [[0-9A-Za-z_-]] that stands in the locator
    right after ["v="] or ["/"]. *)
Theorem video_id_shape url v :
  re_search_video_id url = Some v ->
  String.length v = 11%nat
  /\ all_chars is_id_char v = true
  /\ exists before sep after,
       (sep = "v=" \/ sep = "/") /\ url = before +:+ sep +:+ v +:+ after.
Proof. apply re_search_video_id_spec. Qed.

Lemma video_id_shape_witness :
  String.length "dQw4w9WgXcQ" = 11%nat
  /\ all_chars is_id_char "dQw4w9WgXcQ" = true
  /\ exists before sep after,
       (sep = "v=" \/ sep = "/")
       /\ "https://youtu.be/dQw4w9WgXcQ?t=1"
          = before +:+ sep +:+ "dQw4w9WgXcQ" +:+ after.
Proof.
  apply (video_id_shape "https://youtu.be/dQw4w9WgXcQ?t=1"). reflexivity.
Defined.

(** The stem of the artifacts of a locator: its identifier, or
    ["unknown"]. *)
Definition stem_of (url : string) : string :=
  default "unknown" (re_search_video_id url).

Lemma stem_no_slash url :
  has_char "/" (stem_of url) = false /\ has_char "." (stem_of url) = false.
Proof.
  unfold stem_of. destruct (re_search_video_id url) as [v|] eqn:E; [|done].
  destruct (re_search_video_id_spec _ _ E) as (_ & Ha & _). simpl.
  split; by apply (all_chars_has_char is_id_char).
Qed.

Lemma matches_video_any video_id p :
  has_char "/" video_id = false ->
  matches_video video_id p = true -> matches_any p = true.
Proof.
  intros Hv. unfold matches_video, matches_any.
  destruct (strip_prefix _ p) as [rest|] eqn:E; [|done].
  apply strip_prefix_Some in E as ->. intros Hr.
  rewrite append_assoc, strip_prefix_app, !has_char_app, Hv.
  apply negb_true_iff in Hr. rewrite Hr. simpl. by rewrite orb_true_r.
Qed.

(** X2.  The file the downloader is told to write for a locator,
    ["/tmp/ytdl_<stem>.mp3"], is found by the look-up that follows the
    download, and every file that look-up finds is one the cleanup counts
    as an artifact. *)
Theorem downloads_are_artifacts url fs f :
  matches_video (stem_of url) ("/tmp/ytdl_" +:+ stem_of url +:+ ".mp3") = true
  /\ (f ∈ glob_video (stem_of url) fs -> f ∈ glob_all fs).
Proof.
  split.
  - unfold matches_video.
    replace ("/tmp/ytdl_" +:+ stem_of url +:+ ".mp3")
      with (("/tmp/ytdl_" +:+ stem_of url +:+ ".") +:+ "mp3").
    + by rewrite strip_prefix_app.
    + by rewrite !append_assoc.
  - unfold glob_video, glob_all. rewrite !list_elem_of_filter.
    intros [Hm Hf]. split; [|done].
    eapply matches_video_any; [|exact Hm]. apply stem_no_slash.
Qed.

Lemma downloads_are_artifacts_witness :
  {| path := "/tmp/ytdl_dQw4w9WgXcQ.mp3"; mtime := 9 |}
    ∈ glob_all [ {| path := "/tmp/notes.txt"; mtime := 1 |};
                 {| path := "/tmp/ytdl_dQw4w9WgXcQ.mp3"; mtime := 9 |} ].
Proof.
  apply (downloads_are_artifacts "https://youtu.be/dQw4w9WgXcQ").
  apply list_elem_of_filter. split; [reflexivity|]. right. left.
Defined.

End Artifacts.

(** ** More on the download cache *)

Section Retention.

Import Resolver.

Implicit Types (r : string -> bool) (f g : File) (fs : FS).

Lemma files_to_delete_glob fs f : f ∈ files_to_delete fs -> f ∈ glob_all fs.
Proof.
  intros H. rewrite <- delete_keep_perm. apply elem_of_app. by left.
Qed.

Lemma cleanup_as_filter r fs :
  cleanup_old_downloads r fs
  = filter (fun f => path f ∉ removed_paths r fs) fs.
Proof. unfold cleanup_old_downloads. by rewrite removal_loop. Qed.

Lemma removed_paths_match r fs p :
  p ∈ removed_paths r fs -> matches_any p = true.
Proof.
  unfold removed_paths. intros H.
  apply list_elem_of_fmap in H as (d & -> & Hd).
  apply list_elem_of_filter in Hd as [_ Hd].
  apply files_to_delete_glob in Hd. unfold glob_all in Hd.
  by apply list_elem_of_filter in Hd as [? _].
Qed.

Lemma cleanup_few r fs :
  (length (glob_all fs) <= MAX_CACHED_SONGS)%nat -> cleanup_old_downloads r fs = fs.
Proof.
  intros H. unfold cleanup_old_downloads, files_to_delete.
  rewrite bool_decide_eq_false_2 by (unfold MAX_CACHED_SONGS in *; lia). done.
Qed.

(** X3.  The cleanup only ever deletes: it adds no file, it leaves every
    file outside the pattern ["/tmp/ytdl_*.*"] where it is, and with three
    artifacts or fewer it changes nothing at all. *)
Theorem cleanup_spares r fs :
  (forall f, f ∈ cleanup_old_downloads r fs -> f ∈ fs)
  /\ (forall f, f ∈ fs -> matches_any (path f) = false ->
        f ∈ cleanup_old_downloads r fs)
  /\ ((length (glob_all fs) <= 3)%nat -> cleanup_old_downloads r fs = fs).
Proof.
  split; [|split].
  - intros f. rewrite cleanup_as_filter, list_elem_of_filter. tauto.
  - intros f Hf Hm. rewrite cleanup_as_filter, list_elem_of_filter.
    split; [|done]. intros Hp. apply removed_paths_match in Hp. congruence.
  - apply cleanup_few.
Qed.

Lemma cleanup_spares_witness :
  {| path := "/tmp/notes.txt"; mtime := 5 |}
    ∈ cleanup_old_downloads (fun _ => true) five_files
  /\ cleanup_old_downloads (fun _ => true) (take 3 five_files) = take 3 five_files.
Proof.
  destruct (cleanup_spares (fun _ => true) five_files) as (_ & H2 & _).
  destruct (cleanup_spares (fun _ => true) (take 3 five_files)) as (_ & _ & H3).
  split.
  - apply H2; [|reflexivity]. do 3 right. left.
  - apply H3. simpl. lia.
Defined.

(** X4.  When every deletion succeeds, a second cleanup finds nothing
    left to do. *)
Theorem cleanup_idempotent r fs :
  (forall f, f ∈ files_to_delete fs -> r (path f) = true) ->
  cleanup_old_downloads r (cleanup_old_downloads r fs)
  = cleanup_old_downloads r fs.
Proof.
  intros H. apply cleanup_few.
  pose proof (cleanup_bound r fs) as Hb.
  rewrite (failed_deletions_nil r fs H) in Hb. simpl in Hb.
  unfold MAX_CACHED_SONGS in *. lia.
Qed.

Lemma cleanup_idempotent_witness :
  cleanup_old_downloads (fun _ => true)
    (cleanup_old_downloads (fun _ => true) five_files)
  = cleanup_old_downloads (fun _ => true) five_files.
Proof. apply cleanup_idempotent. done. Defined.

(** X5.  The cleanup does not know which file was just downloaded: when
    that file is among the oldest artifacts, [from_url] deletes it and
    still returns a handle that reads from its path. *)
Theorem handle_to_deleted_file (w : World) fs0 url fs f rest d :
  subprocess_run w (ytdlp_cmd (stem_of url) url) CLI_TIMEOUT fs0 = (RunExit 0, fs) ->
  glob_video (stem_of url) fs = f :: rest ->
  usable_info (extract_info_cli w url) = Some d ->
  f ∈ files_to_delete fs ->
  removable w (path f) = true ->
  handle (from_url w fs0 url)
  = Some (mk_source {| ff_input := path f; ff_before_options := None;
                       ff_options := "-vn" |} d)
  /\ path f ∉ path <$> fs_after (from_url w fs0 url).
Proof.
  intros Hrun Hglob Hinfo Hdel Hrem.
  unfold from_url, cli_download. fold (stem_of url).
  rewrite Hrun. simpl. rewrite Hglob, Hinfo. simpl. split; [done|].
  rewrite cleanup_as_filter. intros Hp.
  apply list_elem_of_fmap in Hp as (g & Hpg & Hg).
  apply list_elem_of_filter in Hg as [Hn _]. apply Hn. rewrite <- Hpg.
  unfold removed_paths. apply list_elem_of_fmap_2.
  by apply list_elem_of_filter.
Qed.

(** Four artifacts in the directory after a download whose file carries
    the oldest modification time. *)
Definition old_upload : FS :=
  [ {| path := "/tmp/ytdl_dQw4w9WgXcQ.mp3"; mtime := 1 |};
    {| path := "/tmp/ytdl_aaaaaaaaaaa.mp3"; mtime := 30 |};
    {| path := "/tmp/ytdl_bbbbbbbbbbb.mp3"; mtime := 20 |};
    {| path := "/tmp/ytdl_ccccccccccc.mp3"; mtime := 40 |} ].

Definition w_old_upload : World :=
  {| subprocess_run := fun _ _ _ => (RunExit 0, old_upload);
     removable := fun _ => true;
     extract_info_cli := fun _ => InfoDict {[ "title" := "Song" ]};
     extract_info_proxy := fun _ => InfoRaised;
     http_get := fun _ _ => HttpTimeout |}.

Lemma handle_to_deleted_file_witness :
  handle (from_url w_old_upload [] "https://youtu.be/dQw4w9WgXcQ")
  = Some (mk_source {| ff_input := "/tmp/ytdl_dQw4w9WgXcQ.mp3";
                       ff_before_options := None; ff_options := "-vn" |}
            {[ "title" := "Song" ]})
  /\ "/tmp/ytdl_dQw4w9WgXcQ.mp3"
     ∉ path <$> fs_after (from_url w_old_upload [] "https://youtu.be/dQw4w9WgXcQ").
Proof.
  apply (handle_to_deleted_file w_old_upload [] "https://youtu.be/dQw4w9WgXcQ"
           old_upload {| path := "/tmp/ytdl_dQw4w9WgXcQ.mp3"; mtime := 1 |} []
           {[ "title" := "Song" ]}); try reflexivity.
  left.
Defined.

Lemma wf_fs_NoDup fs : wf_fs fs -> NoDup (sort_by_mtime (glob_all fs)).
Proof.
  intros Hwf. rewrite sort_by_mtime_perm. unfold glob_all.
  apply NoDup_filter. by eapply NoDup_fmap_1.
Qed.

(** X6.  A file that is strictly newer than every other artifact is never
    deleted by the cleanup. *)
Theorem newest_survives r fs f :
  wf_fs fs ->
  f ∈ glob_all fs ->
  (forall g, g ∈ glob_all fs -> g <> f -> mtime g < mtime f) ->
  f ∈ cleanup_old_downloads r fs.
Proof.
  intros Hwf Hf Hnew. apply cleanup_elem_of; [done|]. split.
  { unfold glob_all in Hf. by apply list_elem_of_filter in Hf as [_ ?]. }
  intros [Hd _]. unfold files_to_delete in Hd.
  case_bool_decide as Hlen; [|by apply elem_of_nil in Hd].
  set (n := (length (glob_all fs) - MAX_CACHED_SONGS)%nat) in *.
  pose proof (wf_fs_NoDup fs Hwf) as Hnd.
  rewrite <- (take_drop n) in Hnd. apply NoDup_app in Hnd as (_ & Hdis & _).
  destruct (drop n (sort_by_mtime (glob_all fs))) as [|g l] eqn:Edrop.
  { assert (length (drop n (sort_by_mtime (glob_all fs))) = 0%nat) as Hl
      by (by rewrite Edrop).
    rewrite length_drop, sort_by_mtime_length in Hl.
    unfold n, MAX_CACHED_SONGS in *. lia. }
  assert (g ∈ drop n (sort_by_mtime (glob_all fs))) as Hg
    by (rewrite Edrop; left).
  assert (older_eq f g) as Hfg by (by eapply sorted_prefix_older).
  assert (g <> f) as Hne.
  { intros ->. eapply Hdis; [exact Hd|left]. }
  assert (g ∈ glob_all fs) as Hgg.
  { rewrite <- sort_by_mtime_perm, <- (take_drop n).
    apply elem_of_app. by right. }
  specialize (Hnew g Hgg Hne). unfold older_eq in Hfg. lia.
Qed.

Lemma newest_survives_witness :
  {| path := "/tmp/ytdl_eeeeeeeeeee.mp3"; mtime := 40 |}
    ∈ cleanup_old_downloads locked five_files.
Proof.
  apply newest_survives; [apply five_files_wf|by apply (bool_decide_unpack _)|].
  intros g Hg Hne.
  assert (Forall (fun g => g <> {| path := "/tmp/ytdl_eeeeeeeeeee.mp3"; mtime := 40 |}
                           -> mtime g < 40) (glob_all five_files)) as Hall.
  { by apply (bool_decide_unpack _). }
  rewrite Forall_forall in Hall. by apply Hall.
Defined.

End Retention.

(** ** Stream selection *)

Section Selection.

Import Resolver.

Implicit Types (x e best : StreamEntry) (l : list StreamEntry).

Lemma py_max_spec best l :
  py_max best l ∈ best :: l
  /\ forall x, x ∈ best :: l -> bitrate_key x <= bitrate_key (py_max best l).
Proof.
  revert best. induction l as [|y l IH]; intros best; simpl.
  - split; [left|]. intros x Hx. apply list_elem_of_singleton in Hx as ->. lia.
  - destruct (IH (if bitrate_key best <? bitrate_key y then y else best))
      as [Hin Hmax].
    split.
    + apply elem_of_cons in Hin as [Heq|Hin].
      * rewrite Heq. destruct (_ <? _); [right; left|left].
      * by do 2 right.
    + intros x Hx.
      assert (bitrate_key best
              <= bitrate_key (if bitrate_key best <? bitrate_key y then y else best)
              /\ bitrate_key y
                 <= bitrate_key (if bitrate_key best <? bitrate_key y then y else best))
        as [Hb Hy].
      { destruct (Z.ltb_spec (bitrate_key best) (bitrate_key y)); lia. }
      pose proof (Hmax _ ltac:(left)) as Hc.
      apply elem_of_cons in Hx as [->|Hx]; [lia|].
      apply elem_of_cons in Hx as [->|Hx]; [lia|].
      apply Hmax. by right.
Qed.

Lemma truthy_Some o u : truthy o = Some u -> o = Some u /\ u <> "".
Proof. destruct o as [[|c s]|]; simpl; [done| |done]. by intros [= <-]. Qed.

Lemma best_url_spec l u :
  best_url l = Some u ->
  exists e, e ∈ l /\ e_url e = Some u /\ u <> ""
            /\ forall x, x ∈ l -> bitrate_key x <= bitrate_key e.
Proof.
  destruct l as [|x l]; [done|]. simpl. intros H.
  apply truthy_Some in H as [Hu Hne].
  destruct (py_max_spec x l) as [Hin Hmax]. eauto.
Qed.

(** X7.  A stream URL taken from a provider comes from a 200 answer, is
    not empty and belongs to an entry of the highest bitrate: among all
    entries for Piped, among the entries whose type starts with ["audio"]
    for Invidious, which never yields another kind of entry. *)
Theorem stream_is_best_audio (o : HttpOutcome) (u : string) :
  (piped_response o = Some u ->
   exists entries e,
     o = HttpResponse 200 (BodyObject entries)
     /\ e ∈ entries /\ e_url e = Some u /\ u <> ""
     /\ forall x, x ∈ entries -> bitrate_key x <= bitrate_key e)
  /\ (invidious_response o = Some u ->
      exists entries e,
        o = HttpResponse 200 (BodyObject entries)
        /\ e ∈ entries /\ is_audio e = true /\ e_url e = Some u /\ u <> ""
        /\ forall x, x ∈ entries -> is_audio x = true ->
                     bitrate_key x <= bitrate_key e).
Proof.
  split.
  - destruct o as [| |status [|entries]]; simpl; try done.
    + by destruct (status =? 200).
    + destruct (Z.eqb_spec status 200) as [->|]; [|done].
      intros H. apply best_url_spec in H as (e & ? & ? & ? & ?).
      exists entries, e. eauto.
  - destruct o as [| |status [|entries]]; simpl; try done.
    + by destruct (status =? 200).
    + destruct (Z.eqb_spec status 200) as [->|]; [|done].
      intros H. apply best_url_spec in H as (e & Hin & Hu & Hne & Hmax).
      apply list_elem_of_In, filter_In in Hin as [Hin Ha].
      exists entries, e. split; [done|]. split; [by apply list_elem_of_In|].
      split; [done|]. split; [done|]. split; [done|].
      intros x Hx Hxa. apply Hmax. apply list_elem_of_In, filter_In.
      split; [by apply list_elem_of_In|done].
Qed.

Definition video_entry : StreamEntry :=
  {| e_type := "video/mp4"; e_bitrate := Some 900000; e_url := Some "https://cdn.example/v" |}.

Lemma stream_is_best_audio_witness :
  exists entries e,
    HttpResponse 200
      (BodyObject [video_entry; audio_entry 64000 "https://cdn.example/lo";
                   audio_entry 128000 "https://cdn.example/hi"])
    = HttpResponse 200 (BodyObject entries)
    /\ e ∈ entries /\ is_audio e = true
    /\ e_url e = Some "https://cdn.example/hi" /\ "https://cdn.example/hi" <> ""
    /\ forall x, x ∈ entries -> is_audio x = true ->
                 bitrate_key x <= bitrate_key e.
Proof.
  apply (stream_is_best_audio
           (HttpResponse 200
              (BodyObject [video_entry; audio_entry 64000 "https://cdn.example/lo";
                           audio_entry 128000 "https://cdn.example/hi"]))).
  reflexivity.
Defined.

End Selection.

(** ** Searching and showing *)

Section Search.

Import Resolver Player.

Local Open Scope nat_scope.

Implicit Types (p : MusicPlayer) (query : string) (o : SearchOutcome).

Lemma truthy_nonempty (x : option string) u : truthy x = Some u -> u <> "".
Proof. intros H. by apply truthy_Some in H as [_ ?]. Qed.

Lemma info_url_nonempty d query : query <> "" -> info_url d query <> "".
Proof.
  intros Hq. unfold info_url.
  destruct (truthy (i_webpage_url d)) eqn:E1; [by eapply truthy_nonempty|].
  destruct (truthy (i_original_url d)) eqn:E2; [by eapply truthy_nonempty|].
  destruct (truthy (i_url d)) eqn:E3; [by eapply truthy_nonempty|done].
Qed.

(** X8.  [process_youtube] gives no song when the extractor raises,
    answers nothing, or answers a list that is empty or starts with a
    falsy entry; in every other case it gives a song of kind ['youtube']
    for the requester, and the locator of that song is empty only if the
    query itself was empty. *)
Theorem process_youtube_result query o req :
  (process_youtube_song query o req = None <->
   o = SearchRaised \/ o = SearchNothing \/ o = SearchEntries []
   \/ exists rest, o = SearchEntries (None :: rest))
  /\ (forall mk i, process_youtube_song query o req = Some mk ->
        source_type (mk i) = "youtube" /\ requester (mk i) = req
        /\ oid (mk i) = i
        /\ (query <> "" -> url (mk i) <> "")).
Proof.
  split.
  - unfold process_youtube_song. split.
    + destruct o as [| |d|[|[d|] rest]]; try done; eauto 6.
    + intros [->|[->|[->|[rest ->]]]]; done.
  - intros mk i. unfold process_youtube_song.
    destruct o as [| |d|[|[d|] rest]]; try done;
      intros [= <-]; simpl; (repeat split; try done);
      apply info_url_nonempty.
Qed.


Definition rick : Info :=
  {| i_title := Some "Never Gonna Give You Up"; i_webpage_url := None;
     i_original_url := None; i_url := Some "dQw4w9WgXcQ";
     i_duration := Some 213%Z; i_thumbnail := None |}.

Lemma process_youtube_result_witness :
  exists mk,
    process_youtube_song "never gonna" (SearchEntries [Some rick]) 7 = Some mk
    /\ source_type (mk 1) = "youtube" /\ requester (mk 1) = 7
    /\ oid (mk 1) = 1 /\ url (mk 1) <> "".
Proof.
  eexists. split; [reflexivity|].
  destruct (process_youtube_result "never gonna" (SearchEntries [Some rick]) 7)
    as [_ H].
  destruct (H _ 1 eq_refl) as (H1 & H2 & H3 & H4).
  split; [exact H1|]. split; [exact H2|]. split; [exact H3|].
  apply H4. done.
Defined.

(** X9.  The queue view is refused exactly when nothing is playing and
    nothing is queued.  Otherwise it lists the first ten queued songs in
    order, numbered from one, and sums the others up in one more line that
    carries their count: never more than eleven lines. *)
Theorem queue_view_lines p :
  (queue_view p = None <-> current p = None /\ queue p = [])
  /\ (forall v, queue_view p = Some v ->
        now_playing v = song_line <$> current p
        /\ length (up_next v) <= 11
        /\ length (up_next v)
           = length (queue p) `min` 10
             + (if bool_decide (10 < length (queue p)) then 1 else 0)
        /\ (forall i s, i < 10 -> queue p !! i = Some s ->
              up_next v !! i = Some (numbered i s))
        /\ (10 < length (queue p) ->
            last (up_next v) = Some (more_line (length (queue p) - 10)))).
Proof.
  split.
  - unfold queue_view. destruct (current p), (queue p); split; try done.
    + by intros [? _].
    + by intros [? _].
    + by intros [_ ?].
  - intros v Hv.
    assert (v = {| now_playing := song_line <$> current p;
                   up_next :=
                     imap numbered (take QUEUE_SHOWN (queue p))
                     ++ (if bool_decide (QUEUE_SHOWN < length (queue p))
                         then [more_line (length (queue p) - QUEUE_SHOWN)]
                         else []);
                   footer :=
                     (if loop p then ["🔂 Loop: Song"] else [])
                     ++ (if loop_queue p then ["🔁 Loop: Queue"] else []) |})
      as ->.
    { unfold queue_view in Hv. destruct (current p), (queue p); by simplify_eq. }
    clear Hv. unfold QUEUE_SHOWN. cbn [now_playing up_next].
    split; [done|].
    rewrite length_app, length_imap, length_take.
    split; [case_bool_decide; cbn [length]; lia|].
    split; [case_bool_decide; cbn [length]; lia|].
    split.
    + intros i s Hi Hs. rewrite lookup_app_l.
      * rewrite list_lookup_imap, lookup_take_lt by lia. by rewrite Hs.
      * rewrite length_imap, length_take. apply lookup_lt_Some in Hs. lia.
    + intros Hlen. rewrite bool_decide_eq_true_2 by done. apply last_snoc.
Qed.

(** Twelve songs wait. *)
Definition p_twelve : MusicPlayer :=
  with_queue (replicate 12 song_a) new_player.

Lemma queue_view_lines_witness :
  exists v, queue_view p_twelve = Some v
            /\ length (up_next v) = 11
            /\ up_next v !! 9 = Some (numbered 9 song_a)
            /\ last (up_next v) = Some (more_line 2).
Proof.
  eexists. split; [reflexivity|].
  destruct (queue_view_lines p_twelve) as [_ H].
  destruct (H _ eq_refl) as (_ & _ & H1 & H2 & H3).
  split; [exact H1|]. split; [apply H2; [lia|reflexivity]|].
  apply H3. simpl. lia.
Defined.

Lemma pad2_length (n : Z) : (0 <= n < 60)%Z -> String.length (pad2 n) = 2.
Proof.
  intros Hn.
  assert (Forall (fun n => String.length (pad2 n) = 2) (seqZ 0 60)) as Hall.
  { apply (bool_decide_unpack _). by vm_compute. }
  rewrite Forall_forall in Hall. apply Hall. apply elem_of_seqZ. lia.
Qed.

(** X10.  A duration that is missing or zero is shown as ["Unknown"].  A
    positive number of seconds below an hour is shown as minutes and
    seconds, from an hour on as hours, minutes and seconds; the seconds,
    and the minutes after hours, always take two digits. *)
Theorem format_duration_shape (s : Z) :
  format_duration None = "Unknown" /\ format_duration (Some 0%Z) = "Unknown"
  /\ ((0 < s)%Z ->
      format_duration (Some s)
      = (if (s <? 3600)%Z then pretty (s / 60)%Z +:+ ":" +:+ pad2 (s mod 60)%Z
         else pretty (s / 3600)%Z +:+ ":" +:+ pad2 (s mod 3600 / 60)%Z
              +:+ ":" +:+ pad2 (s mod 60)%Z)
      /\ String.length (pad2 (s mod 3600 / 60)%Z) = 2
      /\ String.length (pad2 (s mod 60)%Z) = 2).
Proof.
  split; [done|]. split; [done|]. intros Hs.
  assert ((s mod 3600) mod 60 = s mod 60)%Z as Hmod.
  { apply Z.mod_mod_divide. exists 60%Z. lia. }
  split; [|split].
  - unfold format_duration. destruct s as [|q|q]; [lia| |lia].
    cbv zeta. rewrite Hmod.
    destruct (Z.ltb_spec (Z.pos q) 3600) as [Hlt|Hge].
    + rewrite (Z.div_small (Z.pos q) 3600) by lia.
      rewrite Z.eqb_refl. by rewrite (Z.mod_small (Z.pos q) 3600) by lia.
    + assert ((Z.pos q / 3600 =? 0)%Z = false) as ->; [|done].
      apply Z.eqb_neq. pose proof (Z.div_le_lower_bound (Z.pos q) 3600 1).
      lia.
  - apply pad2_length.
    pose proof (Z.mod_pos_bound s 3600). split.
    + apply Z.div_pos; lia.
    + apply Z.div_lt_upper_bound; lia.
  - apply pad2_length. pose proof (Z.mod_pos_bound s 60). lia.
Qed.

Lemma format_duration_shape_witness :
  format_duration (Some 3725%Z) = "1:02:05"
  /\ format_duration (Some 65%Z) = "1:05".
Proof.
  destruct (format_duration_shape 3725) as (_ & _ & H1).
  destruct (format_duration_shape 65) as (_ & _ & H2).
  destruct H1 as [H1 _]; [lia|]. destruct H2 as [H2 _]; [lia|].
  split; [exact H1|exact H2].
Defined.

End Search.

(** ** More on advancing *)

Section Playback.

Import Resolver Player.

Local Open Scope nat_scope.

Implicit Types (env : Env) (p : MusicPlayer) (s c : Song) (m : Cache).

(** A world in which every start succeeds. *)
Definition reliable env : Prop :=
  voice_client env = true
  /\ (forall u, is_Some (resolve env u))
  /\ (forall a, vc_play env a = true).

(** The player once the song at the head has started. *)
Definition started p (rest : list Song) (c' : Song) m : MusicPlayer :=
  {| queue := rest; current := Some c'; loop := loop p;
     loop_queue := loop_queue p; pending_playlist := pending_playlist p;
     preloaded_sources := m; next_oid := next_oid p |}.

Lemma play_next_starts fuel env p c rest a c' m' :
  reinsert p = c :: rest ->
  voice_client env = true ->
  acquire env (preloaded_sources p) c = (Some a, c', m') ->
  vc_play env a = true ->
  play_next (S fuel) env p
  = Some (started p rest c' m',
          ((if pending_playlist p is Some _ then [SpawnRefill] else [])
           ++ [PlayingFromQueue c])
          ++ [NowPlaying c' a] ++ (if rest is [] then [] else [SpawnPreload])).
Proof.
  intros Hq Hv Ha Hp. cbn [play_next]. cbn [queue with_queue]. rewrite Hq.
  cbn [pending_playlist with_queue with_current queue preloaded_sources].
  rewrite Hv. cbn [negb]. rewrite Ha, Hp. done.
Qed.

Lemma acquire_reliable env m c :
  (forall u, is_Some (resolve env u)) -> is_Some (acquire env m c).1.1.
Proof.
  intros Hres. unfold acquire. destruct (_ !! _); [done|].
  destruct (String.eqb _ _); [done|].
  destruct (is_pending_search c); simpl;
    match goal with
    | |- context [resolve env ?u] => destruct (Hres u) as [y ->]
    end; done.
Qed.

Lemma play_next_reliable env p c rest :
  reliable env -> reinsert p = c :: rest ->
  exists c' m' ev,
    play_next 1 env p = Some (started p rest c' m', ev) /\ oid c' = oid c.
Proof.
  intros (Hv & Hres & Hplay) Hq.
  destruct (acquire_reliable env (preloaded_sources p) c Hres) as [a Ha].
  pose proof (acquire_oid env (preloaded_sources p) c) as Ho.
  destruct (acquire env (preloaded_sources p) c) as [[src c'] m'] eqn:E.
  simpl in Ha, Ho. subst src.
  eexists c', m', _. split; [|done].
  by apply (play_next_starts 0 env p c rest a c' m').
Qed.

Lemma play_next_idle fuel env p :
  reinsert p = [] -> pending_playlist p = None ->
  play_next (S fuel) env p
  = Some (with_cache ∅ (with_current None (with_queue [] p)), [QueueEmpty]).
Proof.
  intros Hq Hp. cbn [play_next]. cbn [queue with_queue pending_playlist].
  by rewrite Hq, Hp.
Qed.

(** X11.  With both loop modes off, no cursor and every start succeeding,
    consecutive calls of [play_next] play the queue in order: after [k]
    calls the [k]-th queued song is current and the songs after it wait,
    and the call after the last song leaves the player idle. *)
Theorem plays_in_order env p :
  reliable env ->
  loop p = false -> loop_queue p = false -> pending_playlist p = None ->
  (forall k, k <= length (queue p) ->
     exists p', advance k 1 env p = Some p'
                /\ queue p' = drop k (queue p)
                /\ (0 < k -> oid <$> current p' = oid <$> queue p !! (k - 1)))
  /\ (exists p', advance (S (length (queue p))) 1 env p = Some p'
                 /\ queue p' = [] /\ current p' = None
                 /\ preloaded_sources p' = ∅).
Proof.
  intros Hrel.
  assert (forall k p, loop p = false -> loop_queue p = false ->
            pending_playlist p = None -> k <= length (queue p) ->
            exists p', advance k 1 env p = Some p'
                       /\ queue p' = drop k (queue p)
                       /\ (0 < k -> oid <$> current p' = oid <$> queue p !! (k - 1))
                       /\ loop p' = false /\ loop_queue p' = false
                       /\ pending_playlist p' = None) as Hmain.
  { clear p. induction k as [|k IH]; intros p Hl Hlq Hpl Hk.
    - exists p. split; [done|]. split; [done|]. split; [lia|done].
    - destruct (queue p) as [|c rest] eqn:Eq; [simpl in Hk; lia|].
      assert (reinsert p = c :: rest) as Hre.
      { unfold reinsert. rewrite Hl, Hlq, Eq. by destruct (current p). }
      destruct (play_next_reliable env p c rest Hrel Hre)
        as (c' & m' & ev & Hpn & Ho).
      cbn [advance]. rewrite Hpn.
      destruct (IH (started p rest c' m')) as (p' & Ha & Hq' & Hc' & Hfl);
        [done..|simpl in *; lia|].
      exists p'. split; [done|]. split; [done|]. split; [|done].
      intros _. destruct k as [|k].
      + simpl in Ha. injection Ha as <-. simpl. by rewrite Ho.
      + rewrite Hc' by lia. simpl. by rewrite Nat.sub_0_r. }
  intros Hl Hlq Hpl. split.
  - intros k Hk. destruct (Hmain k p Hl Hlq Hpl Hk) as (p' & ? & ? & ? & _).
    eauto.
  - destruct (Hmain (length (queue p)) p Hl Hlq Hpl (le_n _))
      as (p' & Ha & Hq & _ & Hl' & Hlq' & Hpl').
    rewrite drop_all in Hq.
    assert (forall n q, advance n 1 env q = Some p' ->
              advance (S n) 1 env q
              = (fun r => r.1) <$> play_next 1 env p') as Hsnoc.
    { clear. induction n as [|n IH]; intros q.
      - intros [= ->]. cbn [advance]. by destruct (play_next 1 env p') as [[??]|].
      - cbn [advance]. destruct (play_next 1 env q) as [[q1 ?]|]; [|done].
        intros H. by rewrite <- (IH q1 H). }
    rewrite (Hsnoc _ _ Ha).
    rewrite (play_next_idle 0 env p'); [|unfold reinsert; rewrite Hl', Hlq', Hq;
                                          by destruct (current p')|done].
    eexists. split; [reflexivity|]. done.
Qed.

Lemma env_ok_reliable : reliable env_ok.
Proof. split; [done|]. split; [|done]. intros u. by eexists. Qed.

Lemma plays_in_order_witness :
  exists p', advance 2 1 env_ok (with_queue [song_a; song_b; song_c] new_player)
             = Some p'
             /\ queue p' = [song_c]
             /\ oid <$> current p' = Some 2.
Proof.
  destruct (plays_in_order env_ok (with_queue [song_a; song_b; song_c] new_player)
              env_ok_reliable eq_refl eq_refl eq_refl) as [H _].
  destruct (H 2) as (p' & Ha & Hq & Hc); [simpl; lia|].
  exists p'. split; [exact Ha|]. split; [exact Hq|]. apply Hc. lia.
Defined.

(** [play_next] never changes the loop modes. *)
Lemma load_next_flags env p :
  loop (load_next_from_playlist env p) = loop p
  /\ loop_queue (load_next_from_playlist env p) = loop_queue p.
Proof.
  unfold load_next_from_playlist, enqueue. by repeat case_match.
Qed.

Lemma play_next_flags fuel env p p' ev :
  play_next fuel env p = Some (p', ev) ->
  loop p' = loop p /\ loop_queue p' = loop_queue p.
Proof.
  revert p p' ev. induction fuel as [|fuel IH]; intros p p' ev; [done|].
  cbn [play_next].
  set (p1 := with_queue (reinsert p) p).
  set (p2 := match queue p1, pending_playlist p1 with
             | [], Some _ => load_next_from_playlist env p1
             | _, _ => p1
             end).
  assert (loop p2 = loop p /\ loop_queue p2 = loop_queue p) as [H2 H2'].
  { unfold p2. destruct (queue p1); [|done].
    destruct (pending_playlist p1); [|done].
    by destruct (load_next_flags env p1) as [-> ->]. }
  destruct (queue p2) as [|c rest].
  - intros [= <- _]. done.
  - destruct (negb (voice_client env)); [by intros [= <- _]|].
    destruct (acquire env _ c) as [[src c'] cache'].
    match goal with
    | |- context [match ?st with Some _ => _ | None => _ end = _] =>
        destruct st as [a|]
    end.
    + by intros [= <- _].
    + destruct (play_next fuel env _) as [[p'' ev'']|] eqn:Er; [|done].
      intros [= <- _]. by apply IH in Er as [-> ->].
Qed.

(** X12.  Under repeat-queue no song is lost and none is duplicated: when
    a call of [play_next] returns, the song it made current together with
    the songs that wait are the former current song and the former queue,
    as objects, in another order. *)
Theorem repeat_queue_keeps_songs fuel env p s p' ev :
  loop p = false -> loop_queue p = true -> current p = Some s ->
  play_next fuel env p = Some (p', ev) ->
  exists c', current p' = Some c'
             /\ oid <$> (c' :: queue p') ≡ₚ oid <$> (s :: queue p)
             /\ length (queue p') = length (queue p)
             /\ loop_queue p' = true.
Proof.
  revert p s p' ev. induction fuel as [|fuel IH]; intros p s p' ev Hl Hlq Hc;
    [done|].
  cbn [play_next]. unfold reinsert. rewrite Hc, Hl, Hlq.
  cbn [queue with_queue pending_playlist].
  destruct (queue p ++ [s]) as [|c rest] eqn:Eq.
  { by destruct (queue p). }
  assert (oid <$> (c :: rest) ≡ₚ oid <$> (s :: queue p)) as Hperm.
  { rewrite <- Eq. by rewrite <- Permutation_cons_append. }
  assert (length rest = length (queue p)) as Hlen.
  { apply (f_equal length) in Eq. rewrite length_app in Eq. simpl in Eq. lia. }
  cbn [queue with_queue with_current].
  destruct (negb (voice_client env)).
  { intros [= <- _]. exists c. done. }
  cbn [preloaded_sources with_current with_queue].
  pose proof (acquire_oid env (preloaded_sources p) c) as Ho.
  destruct (acquire env (preloaded_sources p) c) as [[src c'] cache'].
  simpl in Ho.
  assert (oid <$> (c' :: rest) ≡ₚ oid <$> (s :: queue p)) as Hperm'.
  { rewrite <- Hperm. simpl. by rewrite Ho. }
  match goal with
  | |- context [match ?st with Some _ => _ | None => _ end = _] =>
      destruct st as [a|]
  end.
  - intros [= <- _]. exists c'. done.
  - destruct (play_next fuel env _) as [[p'' ev'']|] eqn:Er; [|done].
    intros [= <- _].
    apply (IH _ c') in Er; [|done..].
    destruct Er as (c'' & Hc'' & Hp'' & Hlen'' & Hlq'').
    exists c''. split; [done|]. simpl in Hp'', Hlen''.
    split; [by rewrite Hp''|]. split; [lia|done].
Qed.

(** [song_c] plays, [song_a] and [song_b] wait, the queue repeats. *)
Definition p_repeat_queue : MusicPlayer := with_loops false true p_prefetched.

Lemma repeat_queue_keeps_songs_witness :
  exists p' ev c',
    play_next 1 env_ok p_repeat_queue = Some (p', ev)
    /\ current p' = Some c'
    /\ oid <$> (c' :: queue p') ≡ₚ [3; 1; 2]
    /\ length (queue p') = 2.
Proof.
  destruct (play_next 1 env_ok p_repeat_queue) as [[p' ev]|] eqn:E;
    [|discriminate E].
  destruct (repeat_queue_keeps_songs 1 env_ok p_repeat_queue song_c p' ev
              eq_refl eq_refl eq_refl E) as (c' & H1 & H2 & H3 & _).
  exists p', ev, c'. split; [reflexivity|]. split; [exact H1|].
  split; [exact H2|exact H3].
Defined.

(** X13.  A skip ends repeat-song: the call of [play_next] that follows
    it makes the head of the queue current instead of replaying the song
    that was skipped, which is gone from the queue, and repeat-song stays
    off afterwards. *)
Theorem skip_ends_repeat env p s c rest :
  reliable env ->
  loop p = true -> loop_queue p = false ->
  current p = Some s -> queue p = c :: rest ->
  exists p' ev,
    play_next 1 env (skip p) = Some (p', ev)
    /\ queue p' = rest
    /\ oid <$> current p' = Some (oid c)
    /\ loop p' = false.
Proof.
  intros Hrel Hl Hlq Hc Hq.
  assert (reinsert (skip p) = c :: rest) as Hre.
  { unfold reinsert, skip. simpl. by rewrite Hc, Hlq, Hq. }
  destruct (play_next_reliable env (skip p) c rest Hrel Hre)
    as (c' & m' & ev & Hpn & Ho).
  eexists _, ev. split; [exact Hpn|]. simpl. by rewrite Ho.
Qed.

Lemma skip_ends_repeat_witness :
  exists p' ev,
    play_next 1 env_ok (skip p_repeat) = Some (p', ev)
    /\ queue p' = [song_b]
    /\ oid <$> current p' = Some 1
    /\ loop p' = false.
Proof.
  apply (skip_ends_repeat env_ok p_repeat song_c song_a [song_b]);
    try reflexivity.
  apply env_ok_reliable.
Defined.

Lemma step_flags env op (st st' : Sys) :
  loop (player st) && loop_queue (player st) = false ->
  step env op st = Some st' ->
  loop (player st') && loop_queue (player st') = false.
Proof.
  intros Hf. destruct op; simpl; try (intros [= <-]; done).
  - destruct (play_next fuel env (player st)) as [[p' ev]|] eqn:E; [|done].
    intros [= <-]. simpl. by apply play_next_flags in E as [-> ->].
  - intros [= <-]. by destruct (preload_begin (player st)).
  - destruct (inflight st !! i) as [t|]; [|done]. intros [= <-]. simpl.
    unfold preload_finish. destruct (task_search t).
    + by destruct (resolve env _).
    + by destruct (resolve env _).
  - intros [= <-]. simpl. by destruct (load_next_flags env (player st)) as [-> ->].
  - intros [= <-]. simpl. unfold remove. destruct (_ || _); [done|].
    by destruct (queue (player st) !! _).
  - intros [= <-]. simpl. unfold shuffle. by case_bool_decide.
  - intros [= <-]. simpl. unfold loop_cmd.
    by repeat (destruct (String.eqb _ _)).
Qed.

(** X14.  Repeat-song and repeat-queue are never on together: each loop
    command turns the other mode off, and no other operation turns a mode
    on. *)
Theorem loop_modes_exclusive env ops (st' : Sys) :
  run env ops start = Some st' ->
  loop (player st') && loop_queue (player st') = false.
Proof.
  assert (forall st : Sys, loop (player st) && loop_queue (player st) = false ->
            run env ops st = Some st' ->
            loop (player st') && loop_queue (player st') = false) as H.
  { induction ops as [|op ops IH]; intros st Hf; simpl.
    - by intros [= <-].
    - destruct (step env op st) as [s1|] eqn:E; [|done].
      apply IH. by eapply step_flags. }
  by apply H.
Qed.

Lemma loop_modes_exclusive_witness :
  exists st' : Sys,
    run env_ok [OpLoop "queue"; OpLoop "song"; OpSkip; OpLoop "queue"] start
    = Some st'
    /\ loop (player st') && loop_queue (player st') = false
    /\ loop_queue (player st') = true.
Proof.
  eexists. split; [reflexivity|]. split; [|reflexivity].
  apply (loop_modes_exclusive env_ok
           [OpLoop "queue"; OpLoop "song"; OpSkip; OpLoop "queue"]).
  reflexivity.
Defined.

(** X15.  After [stop] or a disconnect the call of [play_next] made by
    the transport's callback finds nothing to play, whatever the loop
    modes were, provided no playlist cursor is left; the stop button drops
    the cursor itself. *)
Theorem stopped_stays_idle fuel env p :
  (pending_playlist p = None ->
   play_next (S fuel) env (stop p) = Some (stop p, [QueueEmpty])
   /\ play_next (S fuel) env (disconnect p) = Some (disconnect p, [QueueEmpty]))
  /\ play_next (S fuel) env (stop_button p) = Some (stop_button p, [QueueEmpty]).
Proof.
  split.
  - intros Hp. split.
    + rewrite play_next_idle; [done..|]. done.
    + rewrite play_next_idle; [done..|]. done.
  - rewrite play_next_idle; done.
Qed.

Lemma stopped_stays_idle_witness :
  play_next 1 env_ok (stop p_repeat) = Some (stop p_repeat, [QueueEmpty])
  /\ play_next 1 env_ok (disconnect p_repeat)
     = Some (disconnect p_repeat, [QueueEmpty]).
Proof.
  destruct (stopped_stays_idle 0 env_ok p_repeat) as [H _]. by apply H.
Defined.

End Playback.

(** ** More on prefetching *)

Section PrefetchUse.

Import Resolver Player.

Local Open Scope nat_scope.

Implicit Types (env : Env) (p : MusicPlayer) (c : Song) (m : Cache).

(** A song that is resolved from its own locator: neither a local file
    nor a search still to be made. *)
Definition remote c : Prop :=
  String.eqb (source_type c) "local" = false /\ is_pending_search c = false.

Lemma preload_remote env p c rest y :
  queue p = c :: rest -> remote c ->
  preloaded_sources p !! song_key c = None ->
  resolve env (url c) = Some y ->
  preload_next_song env p
  = with_cache (<[song_key c := y]> (preloaded_sources p)) p.
Proof.
  intros Hq [Hloc Hps] Hm Hr. unfold preload_next_song, preload_begin.
  rewrite Hq, Hm, Hloc, Hps. unfold preload_finish. simpl. by rewrite Hr.
Qed.

(** X16.  The prefetch pays off for a song resolved from its own locator:
    once [preload_next_song] has stored the handle of the head of the
    queue, the next [play_next] starts that song from the stored handle
    without resolving again, and removes the handle from the cache. *)
Theorem prefetch_hit fuel env p c rest y :
  queue p = c :: rest -> remote c ->
  loop p = false ->
  preloaded_sources p !! song_key c = None ->
  resolve env (url c) = Some y ->
  voice_client env = true -> vc_play env (Preloaded y) = true ->
  let p1 := preload_next_song env p in
  preloaded_sources p1 !! song_key c = Some y
  /\ queue p1 = queue p
  /\ exists ev,
       play_next (S fuel) env p1
       = Some (started p (tail (reinsert p)) c (preloaded_sources p), ev)
       /\ NowPlaying c (Preloaded y) ∈ ev.
Proof.
  intros Hq Hrem Hl Hm Hr Hv Hplay p1. subst p1.
  rewrite (preload_remote env p c rest y Hq Hrem Hm Hr).
  cbn [preloaded_sources with_cache queue]. rewrite lookup_insert_eq.
  split; [done|]. split; [done|].
  assert (exists rest', reinsert p = c :: rest') as [rest' Hre].
  { unfold reinsert. rewrite Hl, Hq.
    destruct (current p); [destruct (loop_queue p)|]; simpl; eauto. }
  eexists.
  rewrite (play_next_starts fuel env _ c rest' (Preloaded y) c
             (preloaded_sources p)); [|done|done| |done].
  - split.
    + rewrite Hre. reflexivity.
    + apply elem_of_app. right. left.
  - unfold acquire. cbn [preloaded_sources with_cache].
    rewrite lookup_insert_eq, delete_insert_eq. by rewrite (delete_id _ _ Hm).
Qed.

Lemma prefetch_hit_witness :
  preloaded_sources (preload_next_song env_ok p_waiting) !! song_key song_b
  = Some (handle_of (url song_b))
  /\ queue (preload_next_song env_ok p_waiting) = queue p_waiting
  /\ exists ev,
       play_next 1 env_ok (preload_next_song env_ok p_waiting)
       = Some (started p_waiting [] song_b ∅, ev)
       /\ NowPlaying song_b (Preloaded (handle_of (url song_b))) ∈ ev.
Proof.
  apply (prefetch_hit 0 env_ok p_waiting song_b [] (handle_of (url song_b)));
    try reflexivity.
  split; reflexivity.
Defined.

(** X17.  A search still to be made defeats the prefetch: the handle is
    stored under the key of the search marker, [play_next] looks under the
    key of the video the search found, so it resolves the song once more
    and the stored handle stays in the cache. *)
Theorem prefetch_miss_after_search fuel env p c rest yt y :
  queue p = c :: rest -> is_pending_search c = true ->
  loop p = false ->
  preloaded_sources p !! song_key c = None ->
  preloaded_sources p !! song_key (assign_found yt c) = None ->
  cog env = true ->
  process_youtube env (search_query_of (url c)) = Some yt ->
  f_url yt <> url c ->
  is_pending_search (assign_found yt c) = false ->
  resolve env (f_url yt) = Some y ->
  voice_client env = true -> vc_play env (Resolved y) = true ->
  (forall o, oid <$> current p = Some o -> o <> oid c) ->
  let p1 := preload_next_song env p in
  preloaded_sources p1 = <[song_key c := y]> (preloaded_sources p)
  /\ exists p2 ev,
       play_next (S fuel) env p1 = Some (p2, ev)
       /\ NowPlaying (assign_found yt c) (Resolved y) ∈ ev
       /\ preloaded_sources p2 = <[song_key c := y]> (preloaded_sources p).
Proof.
  intros Hq Hps Hl Hm Hm' Hcog Hfound Hne Hps' Hr Hv Hplay Hcur p1.
  assert (String.eqb (source_type c) "local" = false) as Hloc.
  { unfold is_pending_search in Hps. apply andb_true_iff in Hps as [Hs _].
    apply String.eqb_eq in Hs. by rewrite Hs. }
  assert (preload_next_song env p
          = with_cache (<[song_key c := y]> (preloaded_sources p))
              (update_obj (oid c) (assign_found yt) p)) as Hpre.
  { unfold preload_next_song, preload_begin. rewrite Hq, Hm, Hloc, Hps.
    unfold preload_finish. cbn [task_search task_song task_key].
    rewrite Hcog, Hfound.
    assert (find_obj (oid c) (update_obj (oid c) (assign_found yt) p)
            = Some (assign_found yt c)) as ->.
    { unfold find_obj, update_obj. cbn [current queue with_current with_queue].
      rewrite Hq. cbn [fmap list_fmap]. rewrite Nat.eqb_refl.
      destruct (current p) as [cur|] eqn:Ec; cbn [fmap option_fmap option_map].
      - specialize (Hcur (oid cur) eq_refl).
        destruct (Nat.eqb_spec (oid cur) (oid c)) as [?|_]; [done|].
        rewrite (proj2 (Nat.eqb_neq _ _) Hcur). simpl. by rewrite Nat.eqb_refl.
      - simpl. by rewrite Nat.eqb_refl. }
    cbn [default from_option url assign_found id]. by rewrite Hr. }
  subst p1. rewrite Hpre. split; [done|].
  assert (exists rest',
            reinsert (with_cache (<[song_key c := y]> (preloaded_sources p))
                        (update_obj (oid c) (assign_found yt) p))
            = assign_found yt c :: rest') as [rest' Hre].
  { unfold reinsert, update_obj.
    cbn [current queue loop loop_queue with_cache with_current with_queue].
    rewrite Hl, Hq. cbn [fmap list_fmap]. rewrite Nat.eqb_refl.
    destruct (current p); cbn [fmap option_fmap option_map];
      [destruct (loop_queue p)|]; simpl; eexists; reflexivity. }
  eexists _, _.
  rewrite (play_next_starts fuel env _ (assign_found yt c) rest' (Resolved y)
             (assign_found yt c) (<[song_key c := y]> (preloaded_sources p)));
    [|done|done| |done].
  - split; [reflexivity|]. split; [|done].
    apply elem_of_app. right. left.
  - unfold acquire. cbn [preloaded_sources with_cache].
    assert (song_key c <> song_key (assign_found yt c)) as Hk.
    { unfold song_key. simpl. intros [= ?]. by apply Hne. }
    rewrite lookup_insert_ne, Hm' by done.
    assert (String.eqb (source_type (assign_found yt c)) "local" = false) as ->
      by done.
    rewrite Hps'. simpl. by rewrite Hr.
Qed.

Definition song_one : Song := song_of_query "one" None 7 1.

(** [song_one], a search still to be made, waits behind the playing
    [song_c]. *)
Definition p_search : MusicPlayer := with_queue [song_one] p_waiting.

Lemma prefetch_miss_after_search_witness :
  exists p2 ev,
    play_next 1 env_ok (preload_next_song env_ok p_search) = Some (p2, ev)
    /\ size (preloaded_sources p2) = 1
    /\ preloaded_sources p2 !! song_key song_one
       = Some (handle_of "https://www.youtube.com/watch?v=one").
Proof.
  destruct (prefetch_miss_after_search 0 env_ok p_search song_one []
              {| f_title := "one"; f_url := "https://www.youtube.com/watch?v=one";
                 f_duration := "1:00"; f_thumbnail := None |}
              (handle_of "https://www.youtube.com/watch?v=one"))
    as (_ & p2 & ev & H1 & _ & H3); try reflexivity.
  { done. }
  { intros o [= <-]. done. }
  exists p2, ev. split; [exact H1|]. rewrite H3. split; [reflexivity|].
  apply lookup_insert_eq.
Defined.

(** X18.  A local file is never prefetched, and prefetching the same
    head twice is the same as prefetching it once when the song is
    resolved from its own locator. *)
Theorem preload_twice env p c rest :
  queue p = c :: rest ->
  (String.eqb (source_type c) "local" = true -> preload_next_song env p = p)
  /\ (remote c ->
      preload_next_song env (preload_next_song env p) = preload_next_song env p).
Proof.
  intros Hq. split.
  - intros Hloc. unfold preload_next_song, preload_begin. rewrite Hq, Hloc.
    destruct (_ !! _); reflexivity.
  - intros Hrem.
    destruct (preloaded_sources p !! song_key c) as [y0|] eqn:Hm.
    { assert (preload_next_song env p = p) as Hsame.
      { unfold preload_next_song, preload_begin. by rewrite Hq, Hm. }
      by rewrite !Hsame. }
    destruct (resolve env (url c)) as [y|] eqn:Hr.
    + rewrite (preload_remote env p c rest y Hq Hrem Hm Hr).
      unfold preload_next_song at 1, preload_begin.
      cbn [queue with_cache preloaded_sources]. by rewrite Hq, lookup_insert_eq.
    + assert (preload_next_song env p = p) as Hsame.
      { destruct Hrem as [Hloc Hps].
        unfold preload_next_song, preload_begin. rewrite Hq, Hm, Hloc, Hps.
        unfold preload_finish. simpl. by rewrite Hr. }
      by rewrite !Hsame.
Qed.

Lemma preload_twice_witness :
  preload_next_song env_ok (preload_next_song env_ok p_waiting)
  = preload_next_song env_ok p_waiting.
Proof.
  destruct (preload_twice env_ok p_waiting song_b [] eq_refl) as [_ H].
  apply H. split; reflexivity.
Defined.

End PrefetchUse.

(** ** Object identities *)

Section Identities.

Import Resolver Player.

Local Open Scope nat_scope.

Implicit Types (env : Env) (p : MusicPlayer) (os : list nat).

(** The identities of the songs a player holds. *)
Definition held p : list nat :=
  oid <$> (option_list (current p) ++ queue p).

(** No identity twice, and all of them already given out. *)
Definition fresh_below (n : nat) os : Prop :=
  NoDup os /\ Forall (fun o => o < n) os.

Definition distinct p : Prop := fresh_below (next_oid p) (held p).

(** What a run may be given: constructors that keep the identity they
    receive, and reorderings that are permutations. *)
Definition op_ok (op : Op) : Prop :=
  match op with
  | OpEnqueue makers => Forall (fun mk => forall o, oid (mk o) = o) makers
  | OpShuffle rng => forall l, rng l ≡ₚ l
  | _ => True
  end.

Lemma fresh_below_sub n os os' :
  os' ⊆+ os -> fresh_below n os -> fresh_below n os'.
Proof.
  intros Hsub [Hnd Hall]. apply submseteq_Permutation in Hsub as [k Hk].
  rewrite Hk in Hnd, Hall. apply NoDup_app in Hnd as (? & _ & _).
  apply Forall_app in Hall as [? _]. done.
Qed.

Lemma fresh_below_mono n n' os :
  n <= n' -> fresh_below n os -> fresh_below n' os.
Proof.
  intros Hle [Hnd Hall]. split; [done|].
  eapply Forall_impl; [exact Hall|]. simpl. intros. lia.
Qed.

Lemma allocate_oids n (makers : list (nat -> Song)) :
  Forall (fun mk => forall o, oid (mk o) = o) makers ->
  oid <$> allocate n makers = seq n (length makers).
Proof.
  intros H. revert n. induction H as [|mk l Hmk _ IH]; intros n; simpl; [done|].
  by rewrite Hmk, IH.
Qed.

Lemma fresh_below_extend n k os :
  fresh_below n os -> fresh_below (n + k) (os ++ seq n k).
Proof.
  intros [Hnd Hall]. split.
  - apply NoDup_app. split; [done|]. split; [|apply NoDup_seq].
    intros o Ho Hs. rewrite Forall_forall in Hall. apply Hall in Ho.
    apply elem_of_seq in Hs. lia.
  - apply Forall_app. split.
    + eapply Forall_impl; [exact Hall|]. simpl. intros. lia.
    + apply Forall_forall. intros o Ho. apply elem_of_seq in Ho. lia.
Qed.

Lemma enqueue_fresh makers p (front : list Song) :
  Forall (fun mk => forall o, oid (mk o) = o) makers ->
  fresh_below (next_oid p) (oid <$> (front ++ queue p)) ->
  fresh_below (next_oid (enqueue makers p))
    (oid <$> (front ++ queue (enqueue makers p))).
Proof.
  intros Hok Hf. unfold enqueue.
  cbn [next_oid queue with_next_oid with_queue].
  rewrite app_assoc, fmap_app, allocate_oids by done.
  by apply fresh_below_extend.
Qed.

Lemma load_next_fresh env p (front : list Song) :
  fresh_below (next_oid p) (oid <$> (front ++ queue p)) ->
  fresh_below (next_oid (load_next_from_playlist env p))
    (oid <$> (front ++ queue (load_next_from_playlist env p))).
Proof.
  intros Hf. unfold load_next_from_playlist.
  repeat case_match; try done;
    cbn [next_oid queue with_pending];
    apply enqueue_fresh; try done; by repeat constructor.
Qed.

Lemma load_next_current env p :
  current (load_next_from_playlist env p) = current p.
Proof.
  unfold load_next_from_playlist, enqueue. by repeat case_match.
Qed.

Lemma reinsert_fresh p :
  distinct p -> fresh_below (next_oid p) (oid <$> reinsert p).
Proof.
  unfold distinct, held, reinsert. destruct (current p) as [c|]; simpl; [|done].
  destruct (loop p); [done|]. destruct (loop_queue p).
  - apply fresh_below_sub. apply Permutation_submseteq.
    rewrite fmap_app. simpl. by rewrite <- Permutation_cons_append.
  - apply fresh_below_sub. by apply submseteq_cons.
Qed.

Lemma play_next_distinct fuel env p p' ev :
  distinct p -> play_next fuel env p = Some (p', ev) -> distinct p'.
Proof.
  revert p p' ev. induction fuel as [|fuel IH]; intros p p' ev Hd; [done|].
  cbn [play_next].
  set (p1 := with_queue (reinsert p) p).
  set (p2 := match queue p1, pending_playlist p1 with
             | [], Some _ => load_next_from_playlist env p1
             | _, _ => p1
             end).
  assert (fresh_below (next_oid p2) (oid <$> queue p2)) as H2.
  { assert (fresh_below (next_oid p1) (oid <$> queue p1)) as H1
      by (by apply reinsert_fresh).
    unfold p2. destruct (queue p1) eqn:E1; [|by rewrite E1].
    destruct (pending_playlist p1); [|by rewrite E1].
    apply (load_next_fresh env p1 []). by apply reinsert_fresh. }
  destruct (queue p2) as [|c rest] eqn:E2.
  - intros [= <- _]. unfold distinct, held. simpl. rewrite E2.
    split; constructor.
  - destruct (negb (voice_client env)).
    { intros [= <- _]. exact H2. }
    cbn [preloaded_sources with_current with_queue].
    pose proof (acquire_oid env (preloaded_sources p2) c) as Ho.
    destruct (acquire env (preloaded_sources p2) c) as [[src c'] cache'].
    simpl in Ho.
    assert (distinct (with_cache cache'
                        (with_current (Some c')
                           (with_current (Some c) (with_queue rest p2))))) as H4.
    { unfold distinct, held. simpl. rewrite Ho. exact H2. }
    match goal with
    | |- context [match ?st with Some _ => _ | None => _ end = _] =>
        destruct st as [a|]
    end.
    + by intros [= <- _].
    + destruct (play_next fuel env _) as [[p'' ev'']|] eqn:Er; [|done].
      intros [= <- _]. by eapply IH.
Qed.

Lemma update_obj_held o f p :
  (forall s, oid (f s) = oid s) ->
  held (update_obj o f p) = held p /\ next_oid (update_obj o f p) = next_oid p.
Proof.
  intros Hf. split; [|done]. unfold held, update_obj.
  cbn [current queue with_current with_queue].
  assert (forall s, oid (if Nat.eqb (oid s) o then f s else s) = oid s) as Hg.
  { intros s. destruct (Nat.eqb _ _); [apply Hf|done]. }
  rewrite !fmap_app. f_equal.
  - destruct (current p); simpl; [by rewrite Hg|done].
  - rewrite <- list_fmap_compose. apply list_fmap_ext. intros ? s _. apply Hg.
Qed.

Lemma preload_finish_distinct env t p :
  distinct p -> distinct (preload_finish env t p).
Proof.
  intros Hd. unfold preload_finish. destruct (task_search t) as [q|].
  - set (upd := match (if cog env then process_youtube env q else None) with
                | Some yt => assign_found yt
                | None => fun s => s
                end).
    assert (forall s, oid (upd s) = oid s) as Hu.
    { intros s. unfold upd. by destruct (if cog env then _ else _). }
    destruct (update_obj_held (oid (task_song t)) upd p Hu) as [Hh Hn].
    assert (distinct (update_obj (oid (task_song t)) upd p)) as Hd'.
    { unfold distinct. by rewrite Hh, Hn. }
    by destruct (resolve env _).
  - by destruct (resolve env _).
Qed.

Lemma step_distinct env op (st st' : Sys) :
  op_ok op -> distinct (player st) -> step env op st = Some st' ->
  distinct (player st').
Proof.
  intros Hok Hd. destruct op; simpl.
  - intros [= <-]. simpl.
    apply (enqueue_fresh makers (player st) (option_list (current (player st))));
      done.
  - destruct (play_next fuel env (player st)) as [[p' ev]|] eqn:E; [|done].
    intros [= <-]. simpl. by eapply play_next_distinct.
  - intros [= <-]. by destruct (preload_begin (player st)).
  - destruct (inflight st !! i) as [t|]; [|done]. intros [= <-]. simpl.
    by apply preload_finish_distinct.
  - intros [= <-]. simpl. unfold distinct, held.
    rewrite load_next_current.
    by apply (load_next_fresh env (player st)
                (option_list (current (player st)))).
  - intros [= <-]. simpl. unfold remove. destruct (_ || _); [done|].
    destruct (queue (player st) !! _); [|done]. simpl.
    revert Hd. unfold distinct, held. simpl. apply fresh_below_sub.
    apply fmap_submseteq, submseteq_app; [done|].
    apply sublist_submseteq, sublist_delete.
  - intros [= <-]. simpl. unfold shuffle. case_bool_decide; [done|]. simpl.
    revert Hd. unfold distinct, held. simpl. apply fresh_below_sub.
    apply Permutation_submseteq. simpl in Hok. by rewrite Hok.
  - intros [= <-]. simpl.
    revert Hd. unfold distinct, held. simpl. apply fresh_below_sub.
    rewrite app_nil_r. apply fmap_submseteq, submseteq_inserts_r. done.
  - intros [= <-]. simpl. unfold distinct, held. simpl. split; constructor.
  - intros [= <-]. simpl. unfold distinct, held. simpl. split; constructor.
  - intros [= <-]. done.
  - intros [= <-]. simpl. unfold loop_cmd.
    by repeat (destruct (String.eqb _ _)).
  - intros [= <-]. simpl. unfold distinct, held. simpl. split; constructor.
Qed.

(** X19.  No song object is ever in the player twice: along any run that
    builds songs with the identities it is given and shuffles by
    permuting, [current] and the queued songs are pairwise different
    objects, all created before the next identity to give out.  The
    prefetch keys of two songs held at once therefore differ. *)
Theorem identities_stay_distinct env ops (st' : Sys) :
  Forall op_ok ops -> run env ops start = Some st' ->
  NoDup (held (player st'))
  /\ Forall (fun o => o < next_oid (player st')) (held (player st'))
  /\ NoDup (song_key <$> (option_list (current (player st')) ++ queue (player st'))).
Proof.
  intros Hok.
  assert (forall st : Sys, distinct (player st) -> run env ops st = Some st' ->
            distinct (player st')) as H.
  { induction Hok as [|op ops Hop _ IH]; intros st Hd; simpl.
    - by intros [= <-].
    - destruct (step env op st) as [s1|] eqn:E; [|done].
      apply IH. by eapply step_distinct. }
  intros Hrun.
  assert (distinct (player st')) as [Hnd Hall].
  { apply (H start); [|done]. split; constructor. }
  split; [done|]. split; [done|].
  unfold held in Hnd. apply (NoDup_fmap_1 snd).
  rewrite <- list_fmap_compose.
  erewrite list_fmap_ext; [exact Hnd|]. by intros ? s _.
Qed.

Definition two_songs_run : list Op :=
  [ OpEnqueue [song "A" "u" "youtube"; song "B" "u" "youtube"];
    OpPlayNext 1; OpLoop "queue"; OpPlayNext 1;
    OpEnqueue [song "C" "u" "youtube"];
    OpShuffle (fun l => reverse l) ].

(** B plays; C and A wait, in the order the shuffle left them. *)
Definition st_two_songs : Sys :=
  {| player :=
       {| queue := [song "C" "u" "youtube" 2; song "A" "u" "youtube" 0];
          current := Some (song "B" "u" "youtube" 1);
          loop := false; loop_queue := true; pending_playlist := None;
          preloaded_sources := ∅; next_oid := 3 |};
     inflight := [] |}.

Lemma identities_stay_distinct_witness :
  NoDup (held (player st_two_songs))
  /\ NoDup (song_key <$> (option_list (current (player st_two_songs))
                          ++ queue (player st_two_songs))).
Proof.
  assert (run env_ok two_songs_run start = Some st_two_songs) as Hrun
    by (vm_compute; reflexivity).
  assert (Forall op_ok two_songs_run) as Hok.
  { repeat constructor. intros l. simpl. by rewrite reverse_Permutation. }
  destruct (identities_stay_distinct env_ok two_songs_run st_two_songs Hok Hrun)
    as (H1 & _ & H3).
  split; [exact H1|exact H3].
Defined.

End Identities.

(** ** The playlist cursor *)

Section Cursor.

Import Resolver Player.

Local Open Scope nat_scope.

Implicit Types (env : Env) (p : MusicPlayer) (pl : Playlist).

(** The number of entries a cursor runs over. *)
Definition cursor_length pl : nat :=
  if is_spotify pl then length (tracks pl) else length (entries pl).

(** X20.  A refill only appends: the songs already queued stay in front
    in their order, [current] and the cache are not touched, the index of
    the cursor moves forward by one at most over an unchanged list of
    entries, and the cursor is dropped only when its index has reached
    the end of that list. *)
Theorem refill_only_appends env p :
  queue p `prefix_of` queue (load_next_from_playlist env p)
  /\ current (load_next_from_playlist env p) = current p
  /\ preloaded_sources (load_next_from_playlist env p) = preloaded_sources p
  /\ (forall pl, pending_playlist p = Some pl ->
        match pending_playlist (load_next_from_playlist env p) with
        | Some pl' =>
            current_index pl <= current_index pl' <= S (current_index pl)
            /\ entries pl' = entries pl /\ tracks pl' = tracks pl
        | None => cursor_length pl <= current_index pl
        end).
Proof.
  split; [|split; [apply load_next_current|split; [apply load_next_cache|]]].
  - unfold load_next_from_playlist, enqueue.
    repeat case_match; simpl; try done; by apply prefix_app_r.
  - intros pl Hpl. unfold load_next_from_playlist, cursor_length. rewrite Hpl.
    destruct (is_spotify pl) eqn:Es.
    + destruct (tracks pl !! current_index pl) as [[item artist]|] eqn:El.
      * repeat case_match; simplify_eq/=; try rewrite Hpl; simpl;
          repeat split; try done; lia.
      * simpl. by apply lookup_ge_None.
    + destruct (entries pl !! current_index pl) as [[e|]|] eqn:El; simpl.
      * repeat split; try done; lia.
      * repeat split; try done; lia.
      * by apply lookup_ge_None.
Qed.

(** A cursor of two entries, the first of them falsy. *)
Definition two_entries : Playlist :=
  {| is_spotify := false; is_album := false; tracks := [];
     entries := [None;
                 Some {| en_id := Some "aaaaaaaaaaa"; en_title := Some "A";
                         en_duration := Some 65%Z; en_webpage_url := None;
                         en_url := None; en_thumbnail := None |}];
     current_index := 0; pl_requester := 7 |}.

Definition p_cursor : MusicPlayer := with_pending (Some two_entries) p_waiting.

Lemma refill_only_appends_witness :
  queue p_cursor
    `prefix_of` queue (load_next_from_playlist env_ok
                         (load_next_from_playlist env_ok p_cursor))
  /\ length (queue (load_next_from_playlist env_ok
                      (load_next_from_playlist env_ok p_cursor))) = 2
  /\ pending_playlist
       (load_next_from_playlist env_ok
          (load_next_from_playlist env_ok
             (load_next_from_playlist env_ok p_cursor))) = None.
Proof.
  destruct (refill_only_appends env_ok p_cursor) as (H1 & _).
  destruct (refill_only_appends env_ok (load_next_from_playlist env_ok p_cursor))
    as (H2 & _).
  split; [by etransitivity|]. split; reflexivity.
Defined.

(** X21.  An entry on which building the search text raises blocks the
    cursor: the exception is caught before the index is advanced, so
    every later refill meets the same entry and changes nothing. *)
Theorem refill_stuck env p pl track artist name (n : nat) :
  pending_playlist p = Some pl ->
  is_spotify pl = true -> is_album pl = false ->
  tracks pl !! current_index pl = Some (Some track, artist) ->
  truthy (tr_name track) = Some name -> tr_artists track = [] ->
  Nat.iter n (load_next_from_playlist env) p = p.
Proof.
  intros Hpl Hs Ha Hl Hn Hart.
  assert (load_next_from_playlist env p = p) as Hone.
  { unfold load_next_from_playlist. by rewrite Hpl, Hs, Hl, Ha, Hn, Hart. }
  induction n as [|n IH]; simpl; [done|]. by rewrite IH.
Qed.

Definition no_artist : Playlist :=
  {| is_spotify := true; is_album := false;
     tracks := [(Some {| tr_name := Some "Song"; tr_artists := [];
                         tr_image := None |}, "");
                (Some {| tr_name := Some "Next"; tr_artists := ["Band"];
                         tr_image := None |}, "")];
     entries := []; current_index := 0; pl_requester := 7 |}.

Lemma refill_stuck_witness :
  Nat.iter 5 (load_next_from_playlist env_ok)
    (with_pending (Some no_artist) p_waiting)
  = with_pending (Some no_artist) p_waiting.
Proof.
  apply (refill_stuck env_ok _ no_artist
           {| tr_name := Some "Song"; tr_artists := []; tr_image := None |}
           "" "Song"); reflexivity.
Defined.

End Cursor.
